(** * Pipeline configuration model: jobs, phases and stage expansion

    A shallow embedding of [deploy_pipeline/pipeline/config.py].

    The three classes of the module ([Job], [Pipeline], [Stage]) become
    three modules.  A [Pipeline] is a mutable Python object that every
    method receives as [self]; its methods are therefore computations in
    a state-and-exception monad over the pipeline's fields.  A [Stage]
    keeps a reference to its pipeline and never copies it, so the
    methods of [Stage] run in the same monad, over the same state. *)

From Stdlib Require Import Ascii.
From stdpp Require Import base list strings gmap sorting pretty.

Local Open Scope string_scope.
Local Open Scope list_scope.

(** ** Exceptions *)

(** The exception classes the module defines, together with the one
    built-in exception its code can raise.  Each carries its message. *)
Inductive exn : Type :=
  | NameError (msg : string)
  | AttributeError (msg : string)
  | PhaseException (msg : string)
  | DuplicatePhaseException (msg : string)
  | InvalidPhaseException (msg : string)
  | JobException (msg : string)
  | InvalidJobTemplateException (msg : string).

(** [class DuplicatePhaseException(PhaseException)] and
    [class InvalidPhaseException(PhaseException)]. *)
Definition is_PhaseException (e : exn) : bool :=
  match e with
  | PhaseException _ | DuplicatePhaseException _ | InvalidPhaseException _ => true
  | _ => false
  end.

(** [class InvalidJobTemplateException(JobException)]. *)
Definition is_JobException (e : exn) : bool :=
  match e with
  | JobException _ | InvalidJobTemplateException _ => true
  | _ => false
  end.

Definition is_DuplicatePhaseException (e : exn) : bool :=
  match e with DuplicatePhaseException _ => true | _ => false end.

Definition is_InvalidPhaseException (e : exn) : bool :=
  match e with InvalidPhaseException _ => true | _ => false end.

(** The outcome of a call: it returns a value or raises. *)
Inductive result (A : Type) : Type :=
  | Returned (a : A)
  | Raised (e : exn).
Arguments Returned {A} a.
Arguments Raised {A} e.

(** Truth value of a [str]: only the empty string is falsy. *)
Definition str_bool (s : string) : bool :=
  match s with
  | EmptyString => false
  | String _ _ => true
  end.

(** ** Job *)

Module Job.

Record t : Type := mk {
  _job_name : string;
  phase : string;
  template : string;
  var_key : option string;
  host_selectors : list string;
  package_selectors : list string
}.

(** The read-only property [name]. *)
Definition name (self : t) : string := _job_name self.

(** [Job.__init__]: the constructor touches no shared state. *)
Definition __init__ (job_name phase_name : string) : result t :=
  if negb (str_bool job_name) then
    Raised (JobException "Job Name is Required")
  else
    Returned {| _job_name := job_name;
                phase := phase_name;
                template := "";
                var_key := None;
                host_selectors := [];
                package_selectors := [] |}.

End Job.

(** ** Insertion-ordered dictionaries

    [_job_phase] is a [defaultdict(list)].  Iterating a Python dict
    visits the keys in the order in which they were first inserted, and
    [get_jobs] relies on it, so the dictionary is an association list
    with the newest key last. *)
Section Dict.
Context {V : Type}.

Definition dict : Type := list (string * V).

Fixpoint dict_get (k : string) (d : dict) : option V :=
  match d with
  | [] => None
  | (k', v) :: d' => if decide (k = k') then Some v else dict_get k d'
  end.

(** In-place update of the value stored under a key that is present. *)
Fixpoint dict_alter (f : V → V) (k : string) (d : dict) : dict :=
  match d with
  | [] => []
  | (k', v) :: d' =>
      if decide (k = k') then (k', f v) :: d' else (k', v) :: dict_alter f k d'
  end.

(** [defaultdict.__getitem__]: a missing key is first inserted, at the
    end, with the value of the default factory. *)
Definition defaultdict_getitem (default : V) (k : string) (d : dict) : V * dict :=
  match dict_get k d with
  | Some v => (v, d)
  | None => (default, d ++ [(k, default)])
  end.

Definition dict_keys (d : dict) : list string := map fst d.
End Dict.
Arguments dict V : clear implicits.

(** ** Pipeline *)

Module Pipeline.

(** [host_order_label] is annotated on the class but [__init__] does
    not assign it: the attribute is absent until the loader sets it. *)
Record t : Type := mk {
  _job_name_cache : gset string;
  _job_phase : dict (list Job.t);
  template : string;
  host_order_label : option string;
  _phases : list string
}.

Definition set_job_name_cache (c : gset string) (self : t) : t :=
  mk c (_job_phase self) (template self) (host_order_label self) (_phases self).
Definition set_job_phase (d : dict (list Job.t)) (self : t) : t :=
  mk (_job_name_cache self) d (template self) (host_order_label self) (_phases self).
Definition set_phases (l : list string) (self : t) : t :=
  mk (_job_name_cache self) (_job_phase self) (template self) (host_order_label self) l.

(** Assignment to the public attributes, as the loader does. *)
Definition set_template (s : string) (self : t) : t :=
  mk (_job_name_cache self) (_job_phase self) s (host_order_label self) (_phases self).
Definition set_host_order_label (s : string) (self : t) : t :=
  mk (_job_name_cache self) (_job_phase self) (template self) (Some s) (_phases self).

(** A method call on the pipeline: from the state of [self] before the
    call to the outcome and the state of [self] after it. *)
Definition M (A : Type) : Type := t → result A * t.

#[global] Instance M_ret : MRet M := λ A a self, (Returned a, self).
#[global] Instance M_bind : MBind M := λ A B f m self,
  match m self with
  | (Returned a, self') => f a self'
  | (Raised e, self') => (Raised e, self')
  end.

Definition get : M t := λ self, (Returned self, self).
Definition modify (f : t → t) : M unit := λ self, (Returned tt, f self).
Definition raise {A : Type} (e : exn) : M A := λ self, (Raised e, self).

(** A [for] loop whose body yields: the items yielded by every
    iteration, in order. *)
Fixpoint for_yield {A B : Type} (l : list A) (body : A → M (list B)) : M (list B) :=
  match l with
  | [] => mret []
  | x :: l' => ys ← body x; zs ← for_yield l' body; mret (ys ++ zs)
  end.

(** [Pipeline.__init__] *)
Definition __init__ : t :=
  {| _job_name_cache := ∅;
     _job_phase := [];
     template := "";
     host_order_label := None;
     _phases := [] |}.

(** [Pipeline.add_job].  The method returns [self]; the returned
    reference is the state itself, so the value is [tt]. *)
Definition add_job (job : Job.t) : M unit :=
  self ← get;
  if decide (Job.name job ∈ _job_name_cache self) then
    raise (JobException ("Duplicate Job Name: " +:+ Job.name job))
  else if decide (Job.phase job ∉ _phases self) then
    raise (InvalidPhaseException ("Invalid Phase Name: " +:+ Job.phase job))
  else
    modify (λ self, set_job_name_cache ({[Job.name job]} ∪ _job_name_cache self) self);;
    modify (λ self,
      let '(_, d) := defaultdict_getitem [] (Job.phase job) (_job_phase self) in
      set_job_phase (dict_alter (λ jobs, jobs ++ [job]) (Job.phase job) d) self).

(** [Pipeline.get_jobs_by_phase].  Subscripting the [defaultdict]
    inserts an empty list under a key it does not hold yet. *)
Definition get_jobs_by_phase (phase_name : string) : M (list Job.t) :=
  self ← get;
  let '(jobs, d) := defaultdict_getitem [] phase_name (_job_phase self) in
  modify (set_job_phase d);;
  mret jobs.

(** [Pipeline.get_jobs]: the dictionary's items in key order, and the
    jobs of each item in list order. *)
Definition get_jobs : M (list Job.t) :=
  self ← get;
  mret (flat_map (λ item, item.2) (_job_phase self)).

(** The names bound where the body of [add_phase] runs: its two
    parameters, then the names the module binds at top level.  No
    built-in is called [phase]. *)
Definition add_phase_locals : list string := ["self"; "phase_name"].
Definition module_globals : list string :=
  ["defaultdict"; "product"; "Dict"; "List"; "Union"; "Tuple"; "Iterable"; "os";
   "Job"; "Pipeline"; "Stage"; "load_pipeline_from_config"; "with_full_path";
   "PhaseException"; "DuplicatePhaseException"; "InvalidPhaseException";
   "JobException"; "InvalidJobTemplateException"].

(** Evaluation of the message [f'Duplicate Phase Name: {phase.name}'].
    The replacement field reads the name [phase], which is bound
    neither in the method nor in the module (the parameter is called
    [phase_name]), so the lookup raises [NameError] and no message is
    ever built. *)
Definition duplicate_phase_message : M string :=
  if decide ("phase" ∈ add_phase_locals ++ module_globals) then
    (* a class, function or module of the module's top level *)
    raise (AttributeError "object has no attribute 'name'")
  else
    raise (NameError "name 'phase' is not defined").

(** [Pipeline.add_phase] *)
Definition add_phase (phase_name : string) : M unit :=
  self ← get;
  if decide (phase_name ∈ _phases self) then
    msg ← duplicate_phase_message;
    raise (DuplicatePhaseException msg)
  else
    modify (λ self, set_phases (_phases self ++ [phase_name]) self).

(** [Pipeline.get_phases] *)
Definition get_phases : M (list string) :=
  self ← get;
  mret (_phases self).

End Pipeline.

(** ** Ordering groups

    [Stage] accepts ordering groups of any type; it uses two operations
    of that type: the comparison [<], through [sorted], and the
    formatting of a value into an f-string. *)
Class OrderGroup (G : Type) : Type := {
  __lt__ : G → G → bool;
  __format__ : G → string
}.

#[export] Instance int_OrderGroup : OrderGroup Z :=
  {| __lt__ := Z.ltb; __format__ := pretty |}.
#[export] Instance str_OrderGroup : OrderGroup string :=
  {| __lt__ := String.ltb; __format__ := λ s, s |}.

Section Sorted.
Context {G : Type} `{!OrderGroup G}.

(** [x] goes before the first element that is not smaller than it, so
    before the elements equal to it. *)
Fixpoint insort (x : G) (l : list G) : list G :=
  match l with
  | [] => [x]
  | y :: l' => if __lt__ y x then y :: insort x l' else x :: y :: l'
  end.

(** A stable sort that compares with [<] only, as [list.sort] does. *)
Definition list_sort (l : list G) : list G := foldr insort [] l.

(** The built-in [sorted(iterable, reverse=...)].  With [reverse] the
    list is reversed, sorted and reversed again, which keeps equal
    elements in their original order. *)
Definition sorted (l : list G) (rev : bool) : list G :=
  if rev then reverse (list_sort (reverse l)) else list_sort l.
End Sorted.

(** [itertools.product] of two iterables: the rightmost one advances
    fastest. *)
Definition product {A B : Type} (xs : list A) (ys : list B) : list (A * B) :=
  flat_map (λ x, map (pair x) ys) xs.

(** ** Stage *)

Module Stage.
Import Pipeline.

Section Stage.
Context {G : Type} `{!OrderGroup G}.

(** The attribute [_pipeline] is a reference to the pipeline the
    methods below run on: the state of the monad [Pipeline.M]. *)
Record t : Type := mk { _order_groups : list G }.

(** [Stage.__init__] *)
Definition __init__ (order_groups : list G) (reverse : bool) : t :=
  {| _order_groups := sorted order_groups reverse |}.

(** [Stage._get_stages].  [product] reads both of its arguments to
    the end before the first pair comes out. *)
Definition _get_stages (self : t) : M (list (G * string * string)) :=
  phases ← get_phases;
  for_yield (product (_order_groups self) phases)
    (λ '(stage, phase_name),
       mret [(stage, phase_name, __format__ stage +:+ "-" +:+ phase_name)]).

(** [Stage.get_stages] *)
Definition get_stages (self : t) : M (list string) :=
  stages ← _get_stages self;
  for_yield stages (λ '(_, _, stage), mret [stage]).

(** [Stage.get_stage_jobs] *)
Definition get_stage_jobs (self : t) : M (list (G * string * string * Job.t)) :=
  stages ← _get_stages self;
  for_yield stages
    (λ '(stage, phase_name, stage_name),
       jobs ← get_jobs_by_phase phase_name;
       for_yield jobs (λ job, mret [(stage, phase_name, stage_name, job)])).
End Stage.
Arguments t G : clear implicits.
End Stage.

(** ** Running a pipeline from its constructor *)

(** [reachable jobs self]: [self] is the state of a pipeline after some
    calls have returned, and [jobs] are the jobs the successful
    [add_job] calls received, oldest first.  A call that raises leaves
    the state as it was.  A job is not modified once it is registered. *)
Inductive reachable : list Job.t → Pipeline.t → Prop :=
  | reachable_init :
      reachable [] Pipeline.__init__
  | reachable_set_template jobs self s :
      reachable jobs self →
      reachable jobs (Pipeline.set_template s self)
  | reachable_set_host_order_label jobs self s :
      reachable jobs self →
      reachable jobs (Pipeline.set_host_order_label s self)
  | reachable_add_phase jobs self phase_name self' :
      reachable jobs self →
      Pipeline.add_phase phase_name self = (Returned tt, self') →
      reachable jobs self'
  | reachable_add_job jobs self job self' :
      reachable jobs self →
      Pipeline.add_job job self = (Returned tt, self') →
      reachable (jobs ++ [job]) self'
  | reachable_get_jobs_by_phase jobs self phase_name r self' :
      reachable jobs self →
      Pipeline.get_jobs_by_phase phase_name self = (r, self') →
      reachable jobs self'.

(** [built jobs self]: as [reachable], for a pipeline on which no
    method but [add_phase] and [add_job] has been called. *)
Inductive built : list Job.t → Pipeline.t → Prop :=
  | built_init :
      built [] Pipeline.__init__
  | built_set_template jobs self s :
      built jobs self →
      built jobs (Pipeline.set_template s self)
  | built_set_host_order_label jobs self s :
      built jobs self →
      built jobs (Pipeline.set_host_order_label s self)
  | built_add_phase jobs self phase_name self' :
      built jobs self →
      Pipeline.add_phase phase_name self = (Returned tt, self') →
      built jobs self'
  | built_add_job jobs self job self' :
      built jobs self →
      Pipeline.add_job job self = (Returned tt, self') →
      built (jobs ++ [job]) self'.

(** ** Vocabulary of the statements *)

(** The jobs of [jobs] bound to the phase [phase_name], in the order of
    [jobs]. *)
Definition jobs_in_phase (phase_name : string) (jobs : list Job.t) : list Job.t :=
  filter (λ job, Job.phase job = phase_name) jobs.

(** The distinct elements of a list, each at its first occurrence. *)
Definition first_seen (l : list string) : list string :=
  foldl (λ seen x, if decide (x ∈ seen) then seen else seen ++ [x]) [] l.

(** What the pipeline stores under a phase name: the list in
    [_job_phase], or nothing. *)
Definition stored_jobs (phase_name : string) (self : Pipeline.t) : list Job.t :=
  default [] (dict_get phase_name (Pipeline._job_phase self)).

(** The state [add_job] leaves when it returns. *)
Definition add_job_state (job : Job.t) (self : Pipeline.t) : Pipeline.t :=
  let self1 :=
    Pipeline.set_job_name_cache ({[Job.name job]} ∪ Pipeline._job_name_cache self) self in
  Pipeline.set_job_phase
    (dict_alter (λ jobs, jobs ++ [job]) (Job.phase job)
       (defaultdict_getitem [] (Job.phase job) (Pipeline._job_phase self1)).2)
    self1.

(** The state [get_jobs_by_phase] leaves. *)
Definition get_jobs_by_phase_state (phase_name : string) (self : Pipeline.t) : Pipeline.t :=
  Pipeline.set_job_phase
    (defaultdict_getitem [] phase_name (Pipeline._job_phase self)).2 self.

(** Two states that every reading method tells apart in nothing: same
    phases, same names, same jobs under every phase name. *)
Definition same_view (self self' : Pipeline.t) : Prop :=
  Pipeline._phases self' = Pipeline._phases self ∧
  Pipeline._job_name_cache self' = Pipeline._job_name_cache self ∧
  ∀ phase_name, stored_jobs phase_name self' = stored_jobs phase_name self.

(** What every reachable pipeline satisfies. *)
Record consistent (jobs : list Job.t) (self : Pipeline.t) : Prop := {
  keys_nodup : NoDup (dict_keys (Pipeline._job_phase self));
  stored_ok : ∀ phase_name, stored_jobs phase_name self = jobs_in_phase phase_name jobs;
  cache_ok : ∀ n, n ∈ Pipeline._job_name_cache self ↔ n ∈ map Job.name jobs;
  phases_nodup : NoDup (Pipeline._phases self);
  phases_ok : ∀ job, job ∈ jobs → Job.phase job ∈ Pipeline._phases self;
  names_nodup : NoDup (map Job.name jobs)
}.

(** [a] may stand before [b] in ascending order. *)
Definition not_after {G : Type} `{!OrderGroup G} (a b : G) : Prop := __lt__ b a = false.

Section StageTerms.
Context {G : Type} `{!OrderGroup G}.
Implicit Types (st : Stage.t G) (self : Pipeline.t).

(** The f-string [f'{stage}-{phase_name}']. *)
Definition stage_name (g : G) (phase_name : string) : string :=
  __format__ g +:+ "-" +:+ phase_name.

(** What [_get_stages] yields, as a function of the state. *)
Definition stage_triples st self : list (G * string * string) :=
  map (λ '(g, ph), (g, ph, stage_name g ph))
      (product (Stage._order_groups st) (Pipeline._phases self)).

(** What [get_stage_jobs] yields, as a function of the state. *)
Definition stage_job_tuples st self : list (G * string * string * Job.t) :=
  flat_map (λ '(g, ph, nm), map (λ job, (g, ph, nm, job)) (stored_jobs ph self))
           (stage_triples st self).

End StageTerms.

(** The order C2 words: phases as declared, then jobs as inserted. *)
Definition jobs_in_declaration_order (self : Pipeline.t) (jobs : list Job.t) : list Job.t :=
  flat_map (λ ph, jobs_in_phase ph jobs) (Pipeline._phases self).

(** The order of the code: phases as they received their first job, then
    jobs as inserted. *)
Definition jobs_in_first_job_order (jobs : list Job.t) : list Job.t :=
  flat_map (λ ph, jobs_in_phase ph jobs) (first_seen (map Job.phase jobs)).

(** The spec's words for a name that is "empty/blank": no character, or
    white space only.  The characters are those of [string.whitespace]. *)
Definition is_whitespace (c : ascii) : bool :=
  bool_decide (c ∈ [" "; "009"; "010"; "011"; "012"; "013"]%char).

Fixpoint blank (s : string) : bool :=
  match s with
  | EmptyString => true
  | String c s' => is_whitespace c && blank s'
  end.

(** ** A small pipeline

    Two phases, ["partition"] then ["changebroker"], and one job in
    each. *)
Module Example.
Definition job_a : Job.t := Job.mk "a" "partition" "" None [] [].
Definition job_b : Job.t := Job.mk "b" "changebroker" "" None [] [].

Definition one_phase : Pipeline.t :=
  (Pipeline.add_phase "partition" Pipeline.__init__).2.
Definition two_phases : Pipeline.t :=
  (Pipeline.add_phase "changebroker" one_phase).2.

(** [job_a] is added first. *)
Definition with_a : Pipeline.t := (Pipeline.add_job job_a two_phases).2.
Definition loaded : Pipeline.t := (Pipeline.add_job job_b with_a).2.

(** [job_b], of the second phase, is added first. *)
Definition with_b : Pipeline.t := (Pipeline.add_job job_b two_phases).2.
Definition loaded_b_first : Pipeline.t := (Pipeline.add_job job_a with_b).2.
End Example.

(** ** Loading a pipeline from its configuration *)

(** What [os.path] tells [with_full_path] about the file system:
    [os.path.exists] and [os.path.realpath]. *)
Class FileSystem : Type := {
  os_path_exists : string → bool;
  os_path_realpath : string → string
}.

(** The configuration [load_pipeline_from_config] subscripts: a
    dictionary with the keys ["template"], ["host_order_label"],
    ["phases"] and ["jobs"], the latter a dictionary from job names to
    dictionaries with the keys ["phase"], ["template"], ["var_key"] and
    ["selectors"].  Every key the loader reads is present. *)
Module SelectorsConfig.
Record t : Type := mk {
  host : list string;
  package : list string
}.
End SelectorsConfig.

Module JobConfig.
Record t : Type := mk {
  phase : string;
  template : string;
  var_key : option string;
  selectors : SelectorsConfig.t
}.
End JobConfig.

Module PipelineConfig.
Record t : Type := mk {
  template : string;
  host_order_label : string;
  phases : list string;
  jobs : dict JobConfig.t
}.
End PipelineConfig.

Module Loader.

(** A call that does not touch the pipeline, inside a method. *)
Definition lift {A : Type} (r : result A) : Pipeline.M A := λ self, (r, self).

(** A [for] loop whose body yields nothing. *)
Fixpoint for_each {A : Type} (l : list A) (body : A → Pipeline.M unit) : Pipeline.M unit :=
  match l with
  | [] => mret tt
  | x :: l' => body x;; for_each l' body
  end.

(** [with_full_path] *)
Definition with_full_path `{!FileSystem} (path : string) : result string :=
  if negb (os_path_exists path) then
    Raised (InvalidJobTemplateException ("Invalid Path: " +:+ path))
  else
    Returned (os_path_realpath path).

(** The body of the loop over the jobs: the job is constructed, its
    attributes are assigned and its two selector lists extended, and it
    is added to the pipeline. *)
Definition load_job (item : string * JobConfig.t) : Pipeline.M unit :=
  let '(job_name, job_v) := item in
  job ← lift (Job.__init__ job_name (JobConfig.phase job_v));
  let job :=
    Job.mk (Job._job_name job) (Job.phase job)
      (JobConfig.template job_v) (JobConfig.var_key job_v)
      (Job.host_selectors job ++ SelectorsConfig.host (JobConfig.selectors job_v))
      (Job.package_selectors job ++ SelectorsConfig.package (JobConfig.selectors job_v)) in
  Pipeline.add_job job.

(** The statements of [load_pipeline_from_config] after the pipeline is
    constructed. *)
Definition load_steps `{!FileSystem} (pipeline_config : PipelineConfig.t) : Pipeline.M unit :=
  path ← lift (with_full_path (PipelineConfig.template pipeline_config));
  Pipeline.modify (Pipeline.set_template path);;
  Pipeline.modify
    (Pipeline.set_host_order_label (PipelineConfig.host_order_label pipeline_config));;
  for_each (PipelineConfig.phases pipeline_config) Pipeline.add_phase;;
  for_each (PipelineConfig.jobs pipeline_config) load_job.

(** [load_pipeline_from_config]: the pipeline is local to the call, so
    it is returned, or lost when a statement raises. *)
Definition load_pipeline_from_config `{!FileSystem}
    (pipeline_config : PipelineConfig.t) : result Pipeline.t :=
  match load_steps pipeline_config Pipeline.__init__ with
  | (Returned _, pipeline) => Returned pipeline
  | (Raised e, _) => Raised e
  end.

(** The job the loader registers for an item of ["jobs"]. *)
Definition job_of_config (item : string * JobConfig.t) : Job.t :=
  Job.mk item.1 (JobConfig.phase item.2) (JobConfig.template item.2)
    (JobConfig.var_key item.2)
    (SelectorsConfig.host (JobConfig.selectors item.2))
    (SelectorsConfig.package (JobConfig.selectors item.2)).

End Loader.

(** ** Vocabulary of the further statements *)

(** What the three reading methods of [Pipeline] yield on two states is
    the same. *)
Definition same_reads (self self' : Pipeline.t) : Prop :=
  (Pipeline.get_phases self').1 = (Pipeline.get_phases self).1 ∧
  (Pipeline.get_jobs self').1 = (Pipeline.get_jobs self).1 ∧
  ∀ phase_name,
    (Pipeline.get_jobs_by_phase phase_name self').1 =
    (Pipeline.get_jobs_by_phase phase_name self).1.

(** The same view, and the same items in [_job_phase] up to empty
    lists. *)
Definition same_items (self self' : Pipeline.t) : Prop :=
  same_view self self' ∧
  flat_map (λ item, item.2) (Pipeline._job_phase self') =
  flat_map (λ item, item.2) (Pipeline._job_phase self).

(** An item of ["jobs"] that the loader accepts on its own: a name that
    is not empty and a declared phase. *)
Definition good_item (phases : list string) (item : string * JobConfig.t) : Prop :=
  item.1 ≠ "" ∧ JobConfig.phase item.2 ∈ phases.

(** The pipeline when the loops of the loader start. *)
Definition load_start `{!FileSystem} (pipeline_config : PipelineConfig.t) : Pipeline.t :=
  Pipeline.set_host_order_label (PipelineConfig.host_order_label pipeline_config)
    (Pipeline.set_template
       (os_path_realpath (PipelineConfig.template pipeline_config)) Pipeline.__init__).

(** ** A small configuration *)
Module LoaderExample.

(** A file system with one file. *)
Definition fs : FileSystem :=
  {| os_path_exists := λ path, bool_decide (path = "templates/pipeline.yml");
     os_path_realpath := λ path, "/srv/deploy/" +:+ path |}.

Definition config : PipelineConfig.t :=
  {| PipelineConfig.template := "templates/pipeline.yml";
     PipelineConfig.host_order_label := "wave";
     PipelineConfig.phases := ["partition"; "changebroker"];
     PipelineConfig.jobs :=
       [("b", JobConfig.mk "changebroker" "jobs/b.yml" None
                (SelectorsConfig.mk ["db*"] []));
        ("a", JobConfig.mk "partition" "jobs/a.yml" (Some "vars/a.yml")
                (SelectorsConfig.mk [] ["kernel"]))] |}.

(** The pipeline the loader makes of it. *)
Definition pipeline : Pipeline.t :=
  (@Loader.load_steps fs config Pipeline.__init__).2.

(** The same with a template that is not there. *)
Definition config_missing_template : PipelineConfig.t :=
  PipelineConfig.mk "templates/absent.yml" "wave"
    (PipelineConfig.phases config) (PipelineConfig.jobs config).

(** The same with a phase listed twice. *)
Definition config_duplicate_phase : PipelineConfig.t :=
  PipelineConfig.mk "templates/pipeline.yml" "wave"
    ["partition"; "changebroker"; "partition"] (PipelineConfig.jobs config).

(** The same with a third job, bound to a phase that is not declared. *)
Definition job_c : JobConfig.t :=
  JobConfig.mk "rollback" "jobs/c.yml" None (SelectorsConfig.mk [] []).
Definition config_undeclared_phase : PipelineConfig.t :=
  PipelineConfig.mk "templates/pipeline.yml" "wave"
    (PipelineConfig.phases config) (PipelineConfig.jobs config ++ [("c", job_c)]).

End LoaderExample.

(** * Properties *)

(** ** Dictionaries *)

Section DictFacts.
Context {V : Type}.
Implicit Types (d : dict V) (k : string) (v : V).

Lemma dict_get_None k d : dict_get k d = None ↔ k ∉ dict_keys d.
Proof.
  induction d as [|[k' v] d IH]; simpl.
  - split; [intros _; apply not_elem_of_nil | done].
  - rewrite not_elem_of_cons. destruct (decide (k = k')); [|tauto].
    split; [done | tauto].
Qed.

Lemma dict_get_snoc k k' v d :
  dict_get k (d ++ [(k', v)]) =
    match dict_get k d with
    | Some w => Some w
    | None => if decide (k = k') then Some v else None
    end.
Proof.
  induction d as [|[k'' w] d IH]; simpl; [done|].
  destruct (decide (k = k'')); done.
Qed.

Lemma dict_get_alter f k k' d :
  dict_get k' (dict_alter f k d) =
    if decide (k' = k) then f <$> dict_get k d else dict_get k' d.
Proof.
  induction d as [|[k'' w] d IH]; simpl.
  - by destruct (decide (k' = k)).
  - destruct (decide (k = k'')) as [->|Hne]; simpl.
    + destruct (decide (k' = k'')); done.
    + rewrite IH. destruct (decide (k' = k'')) as [->|]; [|done].
      destruct (decide (k'' = k)); [congruence | done].
Qed.

Lemma dict_keys_alter f k d : dict_keys (dict_alter f k d) = dict_keys d.
Proof.
  unfold dict_keys. induction d as [|[k' w] d IH]; simpl; [done|].
  destruct (decide (k = k')); simpl; [done | by rewrite IH].
Qed.

Lemma dict_keys_snoc k v d : dict_keys (d ++ [(k, v)]) = dict_keys d ++ [k].
Proof. unfold dict_keys. by rewrite map_app. Qed.

(** A lookup with a default never changes what is stored under any
    key that was there, and a fresh key holds the default. *)
Lemma defaultdict_getitem_get v k k' d :
  default v (dict_get k' (defaultdict_getitem v k d).2) = default v (dict_get k' d).
Proof.
  unfold defaultdict_getitem. destruct (dict_get k d) eqn:Hk; simpl; [done|].
  rewrite dict_get_snoc. destruct (dict_get k' d); [done|].
  by destruct (decide (k' = k)).
Qed.

Lemma defaultdict_getitem_value v k d :
  (defaultdict_getitem v k d).1 = default v (dict_get k d).
Proof. unfold defaultdict_getitem. by destruct (dict_get k d). Qed.

Lemma defaultdict_getitem_keys v k d :
  dict_keys (defaultdict_getitem v k d).2 =
    if decide (k ∈ dict_keys d) then dict_keys d else dict_keys d ++ [k].
Proof.
  unfold defaultdict_getitem. destruct (dict_get k d) eqn:Hk; simpl.
  - destruct (decide (k ∈ dict_keys d)) as [|Hn]; [done|].
    apply dict_get_None in Hn. congruence.
  - rewrite dict_keys_snoc. apply dict_get_None in Hk.
    by destruct (decide (k ∈ dict_keys d)).
Qed.

Lemma defaultdict_getitem_present v k d :
  is_Some (dict_get k (defaultdict_getitem v k d).2).
Proof.
  unfold defaultdict_getitem. destruct (dict_get k d) eqn:Hk; simpl; [by eexists|].
  rewrite dict_get_snoc, Hk. destruct (decide (k = k)); [by eexists | done].
Qed.
End DictFacts.

Lemma flat_map_ext_elem {A B : Type} (f g : A → list B) (l : list A) :
  (∀ x, x ∈ l → f x = g x) → flat_map f l = flat_map g l.
Proof.
  induction l as [|x l IH]; simpl; intros Hfg; [done|].
  rewrite (Hfg x) by left. rewrite IH; [done|].
  intros y Hy. apply Hfg. by right.
Qed.

(** Iterating the items of a dictionary whose keys are distinct is
    looking every key up, in key order. *)
Lemma dict_items_by_key {A : Type} (d : dict (list A)) :
  NoDup (dict_keys d) →
  flat_map (λ item, item.2) d =
    flat_map (λ k, default [] (dict_get k d)) (dict_keys d).
Proof.
  induction d as [|[k v] d IH]; simpl; [done|].
  rewrite NoDup_cons. intros [Hk Hd].
  destruct (decide (k = k)); [|done]. simpl. f_equal.
  rewrite IH by done. apply flat_map_ext_elem. intros k' Hk'.
  destruct (decide (k' = k)) as [->|]; done.
Qed.

(** ** Method calls, step by step *)

Ltac run_method :=
  unfold Pipeline.add_job, Pipeline.add_phase, Pipeline.get_jobs_by_phase,
    Pipeline.get_jobs, Pipeline.get_phases, Pipeline.duplicate_phase_message,
    mbind, mret, Pipeline.M_bind, Pipeline.M_ret,
    Pipeline.get, Pipeline.modify, Pipeline.raise;
  simpl.

Lemma add_job_run job self :
  Pipeline.add_job job self =
    if decide (Job.name job ∈ Pipeline._job_name_cache self) then
      (Raised (JobException ("Duplicate Job Name: " +:+ Job.name job)), self)
    else if decide (Job.phase job ∈ Pipeline._phases self) then
      (Returned tt, add_job_state job self)
    else
      (Raised (InvalidPhaseException ("Invalid Phase Name: " +:+ Job.phase job)), self).
Proof.
  run_method. unfold add_job_state.
  destruct (decide (Job.name job ∈ _)); [done|].
  destruct (decide (Job.phase job ∉ _)) as [Hn|Hn].
  - destruct (decide (Job.phase job ∈ _)); done.
  - destruct (decide (Job.phase job ∈ _)) as [|Hn']; [|by destruct Hn].
    simpl. by destruct (defaultdict_getitem _ _ _).
Qed.

Lemma add_phase_run phase_name self :
  Pipeline.add_phase phase_name self =
    if decide (phase_name ∈ Pipeline._phases self) then
      (Raised (NameError "name 'phase' is not defined"), self)
    else
      (Returned tt, Pipeline.set_phases (Pipeline._phases self ++ [phase_name]) self).
Proof. run_method. by destruct (decide (phase_name ∈ _)). Qed.

Lemma get_jobs_by_phase_run phase_name self :
  Pipeline.get_jobs_by_phase phase_name self =
    (Returned (stored_jobs phase_name self), get_jobs_by_phase_state phase_name self).
Proof.
  run_method. unfold stored_jobs, get_jobs_by_phase_state.
  rewrite <- (defaultdict_getitem_value [] phase_name (Pipeline._job_phase self)).
  by destruct (defaultdict_getitem _ _ _).
Qed.

Lemma same_view_refl self : same_view self self.
Proof. done. Qed.

Lemma same_view_trans s1 s2 s3 : same_view s1 s2 → same_view s2 s3 → same_view s1 s3.
Proof.
  intros (Hp & Hc & Hj) (Hp' & Hc' & Hj'). repeat split; [congruence..|].
  intros ph. by rewrite Hj', Hj.
Qed.

Lemma get_jobs_by_phase_state_view phase_name self :
  same_view self (get_jobs_by_phase_state phase_name self).
Proof.
  repeat split. intros ph. unfold stored_jobs, get_jobs_by_phase_state. simpl.
  apply defaultdict_getitem_get.
Qed.

Lemma stored_jobs_add_job phase_name job self :
  stored_jobs phase_name (add_job_state job self) =
    if decide (phase_name = Job.phase job)
    then stored_jobs phase_name self ++ [job]
    else stored_jobs phase_name self.
Proof.
  unfold stored_jobs, add_job_state. simpl. rewrite dict_get_alter.
  destruct (decide (phase_name = Job.phase job)) as [->|].
  - pose proof (defaultdict_getitem_get [] (Job.phase job) (Job.phase job)
                  (Pipeline._job_phase self)) as Hget.
    destruct (defaultdict_getitem_present [] (Job.phase job)
                (Pipeline._job_phase self)) as [jobs Hjobs].
    rewrite Hjobs in Hget |- *. simpl in *. by rewrite Hget.
  - apply defaultdict_getitem_get.
Qed.

Lemma dict_keys_add_job job self :
  dict_keys (Pipeline._job_phase (add_job_state job self)) =
    let keys := dict_keys (Pipeline._job_phase self) in
    if decide (Job.phase job ∈ keys) then keys else keys ++ [Job.phase job].
Proof.
  unfold add_job_state. simpl. rewrite dict_keys_alter.
  apply defaultdict_getitem_keys.
Qed.

(** ** Loops that yield *)

Lemma for_yield_pure {A B : Type} (f : A → list B) (body : A → Pipeline.M (list B))
    (l : list A) (self : Pipeline.t) :
  (∀ x s, body x s = (Returned (f x), s)) →
  Pipeline.for_yield l body self = (Returned (flat_map f l), self).
Proof.
  intros Hbody. induction l as [|x l IH]; simpl; [done|].
  unfold mbind, Pipeline.M_bind. by rewrite Hbody, IH.
Qed.

Lemma for_yield_singletons {A B : Type} (f : A → B) (l : list A) (self : Pipeline.t) :
  Pipeline.for_yield l (λ x, mret [f x]) self = (Returned (map f l), self).
Proof.
  rewrite (for_yield_pure (λ x, [f x])) by done.
  replace (flat_map (λ x, [f x]) l) with (map f l); [done|].
  induction l; simpl; congruence.
Qed.

(** A loop whose body only moves between states with the same view, and
    whose yield depends on the view alone. *)
Lemma for_yield_view {A B : Type} (f : A → Pipeline.t → list B)
    (body : A → Pipeline.M (list B)) :
  (∀ x s s', same_view s s' → f x s' = f x s) →
  (∀ x s, ∃ s', body x s = (Returned (f x s), s') ∧ same_view s s') →
  ∀ l self, ∃ self',
    Pipeline.for_yield l body self = (Returned (flat_map (λ x, f x self) l), self') ∧
    same_view self self'.
Proof.
  intros Hf Hbody l. induction l as [|x l IH]; intros self; simpl.
  - exists self. split; [done | apply same_view_refl].
  - destruct (Hbody x self) as (s1 & Hx & Hv1).
    destruct (IH s1) as (s2 & Hl & Hv2).
    exists s2. split; [|by eapply same_view_trans].
    unfold mbind, Pipeline.M_bind. rewrite Hx, Hl.
    rewrite (flat_map_ext (λ y, f y s1) (λ y, f y self)); [done|].
    intros y. by apply Hf.
Qed.

(** A property of the state that every iteration keeps holds when the
    loop is left, whether it ends or raises. *)
Lemma for_yield_invariant {A B : Type} (P : Pipeline.t → Prop)
    (body : A → Pipeline.M (list B)) :
  (∀ x s r s', P s → body x s = (r, s') → P s') →
  ∀ l s r s', P s → Pipeline.for_yield l body s = (r, s') → P s'.
Proof.
  intros Hbody l. induction l as [|x l IH]; intros s r s' Hs Hrun; simpl in Hrun.
  - by inversion Hrun; subst.
  - unfold mbind, Pipeline.M_bind in Hrun.
    destruct (body x s) as [[ys|e] s1] eqn:Hx.
    + pose proof (Hbody _ _ _ _ Hs Hx) as Hs1.
      destruct (Pipeline.for_yield l body s1) as [[zs|e] s2] eqn:Hl.
      * inversion Hrun; subst. by eapply IH.
      * inversion Hrun; subst. by eapply IH.
    + inversion Hrun; subst. by eapply Hbody.
Qed.

(** ** What every reachable pipeline satisfies *)

Lemma jobs_in_phase_snoc phase_name jobs job :
  jobs_in_phase phase_name (jobs ++ [job]) =
    if decide (phase_name = Job.phase job)
    then jobs_in_phase phase_name jobs ++ [job]
    else jobs_in_phase phase_name jobs.
Proof.
  unfold jobs_in_phase. rewrite filter_app, filter_cons, filter_nil.
  destruct (decide (phase_name = Job.phase job)) as [->|Hne].
  - by destruct (decide (Job.phase job = Job.phase job)).
  - destruct (decide (Job.phase job = phase_name)); [congruence|].
    by rewrite app_nil_r.
Qed.

Lemma NoDup_snoc {A : Type} (l : list A) (x : A) : x ∉ l → NoDup l → NoDup (l ++ [x]).
Proof.
  intros Hx Hl. apply NoDup_app. repeat split; [done | | apply NoDup_singleton].
  intros y Hy Hy'. apply list_elem_of_singleton in Hy'. by subst.
Qed.

Lemma consistent_init : consistent [] Pipeline.__init__.
Proof.
  split; simpl; try apply NoDup_nil_2; try done.
  - intros n. split; intros Hn; [by apply not_elem_of_empty in Hn | by apply not_elem_of_nil in Hn].
  - intros job Hjob. by apply not_elem_of_nil in Hjob.
Qed.

Lemma consistent_add_phase jobs self phase_name :
  phase_name ∉ Pipeline._phases self →
  consistent jobs self →
  consistent jobs (Pipeline.set_phases (Pipeline._phases self ++ [phase_name]) self).
Proof.
  intros Hfresh [Hk Hs Hc Hp Hj Hn]. split; simpl; try done.
  - by apply NoDup_snoc.
  - intros job Hjob. apply elem_of_app. left. by apply Hj.
Qed.

Lemma consistent_add_job jobs self job :
  Job.name job ∉ Pipeline._job_name_cache self →
  Job.phase job ∈ Pipeline._phases self →
  consistent jobs self →
  consistent (jobs ++ [job]) (add_job_state job self).
Proof.
  intros Hfresh Hphase [Hk Hs Hc Hp Hj Hn]. split.
  - rewrite dict_keys_add_job. simpl.
    destruct (decide (Job.phase job ∈ _)); [done | by apply NoDup_snoc].
  - intros ph. rewrite stored_jobs_add_job, jobs_in_phase_snoc, Hs. done.
  - intros n. simpl. rewrite map_app. simpl.
    rewrite elem_of_union, elem_of_singleton, elem_of_app, list_elem_of_singleton, Hc.
    tauto.
  - done.
  - intros j. rewrite elem_of_app, list_elem_of_singleton.
    intros [Hin | ->]; [by apply Hj | done].
  - rewrite map_app. simpl. apply NoDup_snoc; [|done]. by rewrite <- Hc.
Qed.

Lemma consistent_same_view jobs self self' :
  NoDup (dict_keys (Pipeline._job_phase self')) →
  same_view self self' →
  consistent jobs self → consistent jobs self'.
Proof.
  intros Hk' (Hp & Hc & Hs) [_ Hstored Hcache Hnd Hj Hn]. split; try done.
  - intros ph. by rewrite Hs.
  - intros n. by rewrite Hc.
  - by rewrite Hp.
  - intros job Hjob. rewrite Hp. by apply Hj.
Qed.

Lemma consistent_get_jobs_by_phase jobs self phase_name :
  consistent jobs self → consistent jobs (get_jobs_by_phase_state phase_name self).
Proof.
  intros Hcons. eapply consistent_same_view; [| apply get_jobs_by_phase_state_view | done].
  unfold get_jobs_by_phase_state. simpl. rewrite defaultdict_getitem_keys.
  destruct (decide (phase_name ∈ _)); [apply Hcons|].
  apply NoDup_snoc; [done | apply Hcons].
Qed.

Lemma consistent_set_attribute jobs self self' :
  Pipeline._job_name_cache self' = Pipeline._job_name_cache self →
  Pipeline._job_phase self' = Pipeline._job_phase self →
  Pipeline._phases self' = Pipeline._phases self →
  consistent jobs self → consistent jobs self'.
Proof.
  intros Hc Hd Hp Hcons. apply (consistent_same_view jobs self self'); [| |done].
  - rewrite Hd. apply Hcons.
  - repeat split; [done..|]. intros ph. unfold stored_jobs. by rewrite Hd.
Qed.

Lemma reachable_consistent jobs self : reachable jobs self → consistent jobs self.
Proof.
  induction 1 as [|jobs self s _ IH|jobs self s _ IH
                  |jobs self ph self' _ IH Hcall|jobs self job self' _ IH Hcall
                  |jobs self ph r self' _ IH Hcall].
  - apply consistent_init.
  - by apply (consistent_set_attribute jobs self).
  - by apply (consistent_set_attribute jobs self).
  - rewrite add_phase_run in Hcall.
    destruct (decide (ph ∈ _)); [done|]. inversion Hcall; subst.
    by apply consistent_add_phase.
  - rewrite add_job_run in Hcall.
    destruct (decide (Job.name job ∈ _)); [done|].
    destruct (decide (Job.phase job ∈ _)); [|done]. inversion Hcall; subst.
    by apply consistent_add_job.
  - rewrite get_jobs_by_phase_run in Hcall. inversion Hcall; subst.
    by apply consistent_get_jobs_by_phase.
Qed.

Lemma built_reachable jobs self : built jobs self → reachable jobs self.
Proof.
  induction 1;
    [apply reachable_init | by apply reachable_set_template
    | by apply reachable_set_host_order_label | by eapply reachable_add_phase
    | by eapply reachable_add_job].
Qed.

Lemma first_seen_snoc l x :
  first_seen (l ++ [x]) =
    if decide (x ∈ first_seen l) then first_seen l else first_seen l ++ [x].
Proof. unfold first_seen. by rewrite foldl_snoc. Qed.

(** On a pipeline that was only built, the keys of [_job_phase] are the
    phases of the jobs, each where its first job came in. *)
Lemma built_keys jobs self :
  built jobs self →
  dict_keys (Pipeline._job_phase self) = first_seen (map Job.phase jobs).
Proof.
  induction 1 as [|jobs self s _ IH|jobs self s _ IH
                  |jobs self ph self' _ IH Hcall|jobs self job self' _ IH Hcall].
  - done.
  - done.
  - done.
  - rewrite add_phase_run in Hcall.
    destruct (decide (ph ∈ _)); [done|]. by inversion Hcall; subst.
  - rewrite add_job_run in Hcall.
    destruct (decide (Job.name job ∈ _)); [done|].
    destruct (decide (Job.phase job ∈ _)); [|done]. inversion Hcall; subst.
    rewrite dict_keys_add_job, map_app. simpl. by rewrite IH, first_seen_snoc.
Qed.

(** ** Grouping jobs by phase *)

Lemma flat_map_pick {A : Type} (p : string) (x : A) (g : string → list A) (ks : list string) :
  NoDup ks → p ∈ ks →
  flat_map (λ k, if decide (p = k) then x :: g k else g k) ks ≡ₚ x :: flat_map g ks.
Proof.
  induction ks as [|k ks IH]; intros Hnd Hp; [by apply not_elem_of_nil in Hp|].
  apply NoDup_cons in Hnd as [Hk Hnd]. simpl.
  destruct (decide (p = k)) as [->|Hne].
  - rewrite (flat_map_ext_elem _ g); [done|].
    intros k' Hk'. destruct (decide (k = k')); [by subst | done].
  - apply elem_of_cons in Hp as [?|Hp]; [done|].
    rewrite IH by done. by rewrite Permutation_middle.
Qed.

Lemma flat_map_nil {A B : Type} (l : list A) : flat_map (λ _, @nil B) l = [].
Proof. by induction l. Qed.

(** Going through distinct phase names that cover the phases of all the
    jobs, and taking the jobs of each, gives every job once. *)
Lemma jobs_by_phase_Permutation (ks : list string) (jobs : list Job.t) :
  NoDup ks →
  (∀ job, job ∈ jobs → Job.phase job ∈ ks) →
  flat_map (λ k, jobs_in_phase k jobs) ks ≡ₚ jobs.
Proof.
  intros Hnd. induction jobs as [|job jobs IH]; intros Hcover.
  - rewrite (flat_map_ext _ (λ _, [])) by done. by rewrite flat_map_nil.
  - rewrite (flat_map_ext _
      (λ k, if decide (Job.phase job = k)
            then job :: jobs_in_phase k jobs else jobs_in_phase k jobs)).
    + rewrite flat_map_pick; [|done | apply Hcover; left].
      constructor. apply IH. intros j Hj. apply Hcover. by right.
    + intros k. unfold jobs_in_phase. rewrite filter_cons.
      by destruct (decide (Job.phase job = k)).
Qed.

Lemma first_seen_elem_of l x : x ∈ first_seen l ↔ x ∈ l.
Proof.
  induction l as [|y l IH] using rev_ind; [done|].
  rewrite first_seen_snoc, elem_of_app, list_elem_of_singleton.
  destruct (decide (y ∈ first_seen l)) as [Hy|Hy].
  - split; [tauto|]. intros [?| ->]; tauto.
  - rewrite elem_of_app, list_elem_of_singleton. tauto.
Qed.

Lemma first_seen_NoDup l : NoDup (first_seen l).
Proof.
  induction l as [|y l IH] using rev_ind; [apply NoDup_nil_2|].
  rewrite first_seen_snoc. destruct (decide (y ∈ first_seen l)); [done|].
  by apply NoDup_snoc.
Qed.

Lemma get_jobs_run self :
  Pipeline.get_jobs self =
    (Returned (flat_map (λ item, item.2) (Pipeline._job_phase self)), self).
Proof. done. Qed.

Lemma get_phases_run self :
  Pipeline.get_phases self = (Returned (Pipeline._phases self), self).
Proof. done. Qed.

(** ** Sorting *)

Section SortedFacts.
Context {G : Type} `{!OrderGroup G}.

Lemma insort_Permutation x l : insort x l ≡ₚ x :: l.
Proof.
  induction l as [|y l IH]; simpl; [done|].
  destruct (__lt__ y x); [|done]. rewrite IH. apply Permutation_swap.
Qed.

Lemma list_sort_Permutation l : list_sort l ≡ₚ l.
Proof.
  induction l as [|x l IH]; simpl; [done|].
  rewrite insort_Permutation. by constructor.
Qed.

Lemma sorted_Permutation l rev : sorted l rev ≡ₚ l.
Proof.
  destruct rev; simpl; [|apply list_sort_Permutation].
  by rewrite reverse_Permutation, list_sort_Permutation, reverse_Permutation.
Qed.

Lemma sorted_length l rev : length (sorted l rev) = length l.
Proof. apply Permutation_length, sorted_Permutation. Qed.

Lemma StronglySorted_reverse (R : relation G) l :
  StronglySorted R l → StronglySorted (flip R) (reverse l).
Proof.
  induction 1 as [|x l _ IH Hx]; [constructor|].
  rewrite reverse_cons. apply StronglySorted_app. repeat split.
  - intros a b Ha Hb. apply list_elem_of_singleton in Hb as ->.
    rewrite elem_of_reverse in Ha. unfold flip.
    rewrite Forall_forall in Hx. by apply Hx.
  - done.
  - repeat constructor.
Qed.

(** The comparison orders the groups: [<] is asymmetric, and "not
    smaller than" is transitive. *)
Hypothesis lt_asym : ∀ a b : G, __lt__ a b = true → __lt__ b a = false.
Hypothesis ge_trans : ∀ a b c : G, not_after a b → not_after b c → not_after a c.

Lemma insort_sorted x l :
  StronglySorted not_after l → StronglySorted not_after (insort x l).
Proof.
  induction 1 as [|y l Hl IH Hy]; simpl; [repeat constructor|].
  destruct (__lt__ y x) eqn:Hlt.
  - constructor; [done|]. rewrite insort_Permutation.
    constructor; [unfold not_after; by apply lt_asym | done].
  - constructor; [by constructor|]. constructor; [done|].
    eapply Forall_impl; [exact Hy|]. intros z Hz. by eapply ge_trans.
Qed.

Lemma list_sort_sorted l : StronglySorted not_after (list_sort l).
Proof. induction l; simpl; [constructor | by apply insort_sorted]. Qed.

Lemma sorted_sorted l (rev : bool) :
  StronglySorted (if rev then flip not_after else not_after) (sorted l rev).
Proof.
  destruct rev; simpl; [|apply list_sort_sorted].
  apply StronglySorted_reverse, list_sort_sorted.
Qed.
End SortedFacts.

(** ** Stage expansion *)

Section StageFacts.
Context {G : Type} `{!OrderGroup G}.
Implicit Types (st : Stage.t G) (self : Pipeline.t).

Lemma _get_stages_run st self :
  Stage._get_stages st self = (Returned (stage_triples st self), self).
Proof.
  unfold Stage._get_stages, mbind, Pipeline.M_bind. rewrite get_phases_run.
  rewrite (for_yield_pure (λ '(g, ph), [(g, ph, stage_name g ph)])).
  - unfold stage_triples. apply (f_equal (λ r, (Returned r, self))).
    induction (product _ _) as [|[g ph] l IH]; simpl; congruence.
  - by intros [g ph] s.
Qed.

Lemma get_stages_run st self :
  Stage.get_stages st self = (Returned (map snd (stage_triples st self)), self).
Proof.
  unfold Stage.get_stages, mbind, Pipeline.M_bind. rewrite _get_stages_run.
  rewrite (for_yield_pure (λ x, [x.2])).
  - apply (f_equal (λ r, (Returned r, self))).
    induction (stage_triples _ _); simpl; congruence.
  - by intros [[g ph] nm] s.
Qed.

Lemma get_stage_jobs_run st self :
  ∃ self', Stage.get_stage_jobs st self = (Returned (stage_job_tuples st self), self') ∧
           same_view self self'.
Proof.
  unfold Stage.get_stage_jobs, mbind at 1, Pipeline.M_bind at 1.
  rewrite _get_stages_run. unfold stage_job_tuples.
  apply (for_yield_view
           (λ x s, let '(g, ph, nm) := x in
                   map (λ job, (g, ph, nm, job)) (stored_jobs ph s))).
  - intros [[g ph] nm] s s' (_ & _ & Hs). by rewrite Hs.
  - intros [[g ph] nm] s. exists (get_jobs_by_phase_state ph s). split.
    + unfold mbind, Pipeline.M_bind. rewrite get_jobs_by_phase_run.
      apply for_yield_singletons.
    + apply get_jobs_by_phase_state_view.
Qed.

(** The state [get_stage_jobs] leaves is one that calls of
    [get_jobs_by_phase] reach. *)
Lemma reachable_get_stage_jobs jobs st self r self' :
  reachable jobs self →
  Stage.get_stage_jobs st self = (r, self') →
  reachable jobs self'.
Proof.
  unfold Stage.get_stage_jobs, mbind at 1, Pipeline.M_bind at 1.
  rewrite _get_stages_run. intros Hreach. revert Hreach.
  apply (for_yield_invariant (reachable jobs)).
  intros [[g ph] nm] s r' s' Hs Hbody.
  unfold mbind, Pipeline.M_bind in Hbody.
  destruct (Pipeline.get_jobs_by_phase ph s) as [[js|e] s1] eqn:Hcall.
  - rewrite for_yield_singletons in Hbody. inversion Hbody; subst.
    by eapply reachable_get_jobs_by_phase.
  - inversion Hbody; subst. by eapply reachable_get_jobs_by_phase.
Qed.

Lemma stage_triples_same_view st self self' :
  same_view self self' → stage_triples st self' = stage_triples st self.
Proof. intros (Hp & _ & _). unfold stage_triples. by rewrite Hp. Qed.

Lemma stage_job_tuples_same_view st self self' :
  same_view self self' → stage_job_tuples st self' = stage_job_tuples st self.
Proof.
  intros Hv. unfold stage_job_tuples. rewrite (stage_triples_same_view _ _ _ Hv).
  apply flat_map_ext. intros [[g ph] nm]. destruct Hv as (_ & _ & Hs). by rewrite Hs.
Qed.

(** Ordering groups outside, phases inside. *)
Lemma stage_names_nested st self :
  map snd (stage_triples st self) =
    flat_map (λ g, map (stage_name g) (Pipeline._phases self)) (Stage._order_groups st).
Proof.
  unfold stage_triples, product.
  induction (Stage._order_groups st) as [|g gs IH]; simpl; [done|].
  rewrite !map_app, IH. f_equal. rewrite !map_map. done.
Qed.

Lemma stage_names_length st self :
  length (map snd (stage_triples st self)) =
    length (Stage._order_groups st) * length (Pipeline._phases self).
Proof.
  rewrite stage_names_nested.
  rewrite (flat_map_constant_length (c := length (Pipeline._phases self))); [done|].
  intros g _. by rewrite length_map.
Qed.

Lemma stage_job_tuples_nested st self :
  stage_job_tuples st self =
    flat_map (λ g,
      flat_map (λ ph, map (λ job, (g, ph, stage_name g ph, job)) (stored_jobs ph self))
               (Pipeline._phases self))
      (Stage._order_groups st).
Proof.
  unfold stage_job_tuples, stage_triples, product.
  induction (Stage._order_groups st) as [|g gs IH]; simpl; [done|].
  rewrite map_app, flat_map_app, IH. f_equal. clear IH.
  induction (Pipeline._phases self) as [|ph phs IHp]; simpl; [done|].
  by rewrite IHp.
Qed.

Lemma stage_job_tuples_length st self :
  length (stage_job_tuples st self) =
    list_sum (map (λ ph, length (stored_jobs ph self) * length (Stage._order_groups st))
                  (Pipeline._phases self)).
Proof.
  rewrite stage_job_tuples_nested.
  induction (Stage._order_groups st) as [|g gs IH]; simpl.
  - induction (Pipeline._phases self) as [|ph phs IHp]; simpl; [done|].
    rewrite <- IHp. lia.
  - rewrite length_app, IH. clear IH.
    induction (Pipeline._phases self) as [|ph phs IHp]; simpl; [done|].
    rewrite length_app, length_map. lia.
Qed.
End StageFacts.

(** ** The example pipelines are built *)

Lemma example_built_two_phases : built [] Example.two_phases.
Proof.
  eapply built_add_phase with (phase_name := "changebroker");
    [eapply built_add_phase with (phase_name := "partition");
       [apply built_init | reflexivity] | reflexivity].
Qed.

Lemma example_built_with_a : built [Example.job_a] Example.with_a.
Proof.
  apply (built_add_job [] Example.two_phases Example.job_a); [|reflexivity].
  apply example_built_two_phases.
Qed.

Lemma example_built_loaded : built [Example.job_a; Example.job_b] Example.loaded.
Proof.
  apply (built_add_job [Example.job_a] Example.with_a Example.job_b); [|reflexivity].
  apply example_built_with_a.
Qed.

Lemma example_built_loaded_b_first :
  built [Example.job_b; Example.job_a] Example.loaded_b_first.
Proof.
  apply (built_add_job [Example.job_b] Example.with_b Example.job_a); [|reflexivity].
  apply (built_add_job [] Example.two_phases Example.job_b); [|reflexivity].
  apply example_built_two_phases.
Qed.

(** ** Job construction *)

Lemma str_bool_false s : str_bool s = false ↔ s = "".
Proof. by destruct s. Qed.

(** C3, as the spec words it, fails: a name of one space is blank, and
    [Job(" ", "partition")] returns a job. *)
Lemma Job_blank_name_is_accepted :
  blank " " = true ∧
  Job.__init__ " " "partition" = Returned (Job.mk " " "partition" "" None [] []) ∧
  ¬ (∀ job_name phase_name,
       Job.__init__ job_name phase_name = Raised (JobException "Job Name is Required")
       ↔ blank job_name = true).
Proof.
  split; [done|]. split; [done|].
  intros Hclaim. destruct (Hclaim " " "partition") as [_ Hraise].
  by specialize (Hraise eq_refl).
Qed.

(** C3, amended: constructing a [Job] raises [JobException] ("Job Name
    is Required") exactly when the name is the empty string; with any
    other name, white space included, it returns a job of that name and
    phase.  No job the constructor returns has an empty name. *)
Theorem Job_init_spec (job_name phase_name : string) :
  (Job.__init__ job_name phase_name = Raised (JobException "Job Name is Required")
   ↔ job_name = "") ∧
  (job_name ≠ "" ↔
   Job.__init__ job_name phase_name =
     Returned (Job.mk job_name phase_name "" None [] [])) ∧
  (∀ job, Job.__init__ job_name phase_name = Returned job →
     Job.name job = job_name ∧ Job.phase job = phase_name ∧ Job.name job ≠ "").
Proof.
  unfold Job.__init__. destruct job_name as [|c s]; simpl.
  - split; [done|]. split; [done|]. intros job Hjob. discriminate.
  - split; [done|]. split; [done|]. intros job Hjob. by inversion Hjob.
Qed.

(** ** Adding a phase *)

Lemma add_phase_duplicate phase_name self :
  phase_name ∈ Pipeline._phases self →
  Pipeline.add_phase phase_name self =
    (Raised (NameError "name 'phase' is not defined"), self).
Proof. intros Hin. rewrite add_phase_run. by destruct (decide (phase_name ∈ _)). Qed.

Lemma add_phase_fresh phase_name self :
  phase_name ∉ Pipeline._phases self →
  Pipeline.add_phase phase_name self =
    (Returned tt, Pipeline.set_phases (Pipeline._phases self ++ [phase_name]) self).
Proof. intros Hin. rewrite add_phase_run. by destruct (decide (phase_name ∈ _)). Qed.

(** C1 does not hold of the code: declaring ["partition"] a second time
    raises [NameError], not [DuplicatePhaseException].  The message of
    the intended exception reads [phase.name], and no [phase] is in
    scope. *)
Theorem add_phase_duplicate_raises_NameError :
  Pipeline._phases Example.one_phase = ["partition"] ∧
  Pipeline.add_phase "partition" Example.one_phase =
    (Raised (NameError "name 'phase' is not defined"), Example.one_phase) ∧
  is_DuplicatePhaseException (NameError "name 'phase' is not defined") = false ∧
  is_PhaseException (NameError "name 'phase' is not defined") = false.
Proof. repeat split. Qed.

(** ** All the jobs of a pipeline *)

(** C2, as the spec words it, fails: with the phases ["partition"] then
    ["changebroker"], and a job of ["changebroker"] added before a job
    of ["partition"], [get_jobs] yields the job of ["changebroker"]
    first. *)
Lemma get_jobs_not_in_declaration_order :
  built [Example.job_b; Example.job_a] Example.loaded_b_first ∧
  Pipeline.get_phases Example.loaded_b_first =
    (Returned ["partition"; "changebroker"], Example.loaded_b_first) ∧
  Pipeline.get_jobs Example.loaded_b_first =
    (Returned [Example.job_b; Example.job_a], Example.loaded_b_first) ∧
  jobs_in_declaration_order Example.loaded_b_first [Example.job_b; Example.job_a] =
    [Example.job_a; Example.job_b] ∧
  Pipeline.get_jobs Example.loaded_b_first ≠
    (Returned (jobs_in_declaration_order Example.loaded_b_first
                 [Example.job_b; Example.job_a]),
     Example.loaded_b_first).
Proof.
  split; [apply example_built_loaded_b_first|].
  split; [done|]. split; [done|]. split; [done|].
  intros Heq. inversion Heq.
Qed.

(** C2, amended: on a pipeline built by successful [add_phase] and
    [add_job] calls, [get_jobs] yields every added job once, ordered
    first by the order in which the phases received their first job,
    and within a phase by insertion order. *)
Theorem get_jobs_first_job_order (jobs : list Job.t) (self : Pipeline.t) :
  built jobs self →
  Pipeline.get_jobs self = (Returned (jobs_in_first_job_order jobs), self) ∧
  jobs_in_first_job_order jobs ≡ₚ jobs.
Proof.
  intros Hbuilt.
  pose proof (reachable_consistent _ _ (built_reachable _ _ Hbuilt)) as Hcons.
  split.
  - rewrite get_jobs_run. f_equal. f_equal.
    rewrite dict_items_by_key by apply Hcons.
    rewrite (built_keys _ _ Hbuilt). unfold jobs_in_first_job_order.
    apply flat_map_ext. intros ph. apply (stored_ok _ _ Hcons).
  - apply jobs_by_phase_Permutation; [apply first_seen_NoDup|].
    intros job Hjob. apply first_seen_elem_of, list_elem_of_fmap. by exists job.
Qed.

Lemma get_jobs_first_job_order_witness :
  Pipeline.get_jobs Example.loaded_b_first =
    (Returned (jobs_in_first_job_order [Example.job_b; Example.job_a]),
     Example.loaded_b_first) ∧
  jobs_in_first_job_order [Example.job_b; Example.job_a] ≡ₚ
    [Example.job_b; Example.job_a].
Proof.
  apply (get_jobs_first_job_order [Example.job_b; Example.job_a] Example.loaded_b_first).
  apply example_built_loaded_b_first.
Defined.

(** ** Adding a job *)

(** C6: on a pipeline reached with the jobs [jobs], [add_job] raises
    [JobException] (duplicate name) when a job of that name was already
    added, in whatever phase; failing that, it raises
    [InvalidPhaseException] when the job's phase is not declared;
    otherwise it returns, the name is in the name cache, and the job is
    at the end of the list of its phase, the other lists and the phases
    being as before. *)
Theorem add_job_spec (jobs : list Job.t) (self : Pipeline.t) (job : Job.t) :
  reachable jobs self →
  (Job.name job ∈ map Job.name jobs →
     Pipeline.add_job job self =
       (Raised (JobException ("Duplicate Job Name: " +:+ Job.name job)), self)) ∧
  (Job.name job ∉ map Job.name jobs →
   Job.phase job ∉ Pipeline._phases self →
     Pipeline.add_job job self =
       (Raised (InvalidPhaseException ("Invalid Phase Name: " +:+ Job.phase job)), self)) ∧
  (Job.name job ∉ map Job.name jobs →
   Job.phase job ∈ Pipeline._phases self →
     ∃ self',
       Pipeline.add_job job self = (Returned tt, self') ∧
       reachable (jobs ++ [job]) self' ∧
       Job.name job ∈ Pipeline._job_name_cache self' ∧
       stored_jobs (Job.phase job) self' = jobs_in_phase (Job.phase job) jobs ++ [job] ∧
       (∀ ph, ph ≠ Job.phase job → stored_jobs ph self' = stored_jobs ph self) ∧
       Pipeline._phases self' = Pipeline._phases self).
Proof.
  intros Hreach. pose proof (reachable_consistent _ _ Hreach) as Hcons.
  rewrite <- (cache_ok _ _ Hcons). rewrite add_job_run.
  destruct (decide (Job.name job ∈ _)) as [Hdup|Hfresh].
  - split; [done|]. split; intros Hn; by destruct Hn.
  - split; [done|].
    destruct (decide (Job.phase job ∈ _)) as [Hdecl|Hundecl].
    + split; [done|]. intros _ _. exists (add_job_state job self).
      split; [done|]. split.
      { eapply reachable_add_job; [exact Hreach|].
        rewrite add_job_run.
        destruct (decide (Job.name job ∈ _)); [done|].
        by destruct (decide (Job.phase job ∈ _)). }
      split; [simpl; set_solver|]. split.
      { rewrite stored_jobs_add_job, (stored_ok _ _ Hcons).
        by destruct (decide (Job.phase job = Job.phase job)). }
      split; [|done].
      intros ph Hph. rewrite stored_jobs_add_job.
      by destruct (decide (ph = Job.phase job)).
    + split; [done|]. done.
Qed.

Lemma add_job_spec_witness :
  ∃ self',
    Pipeline.add_job Example.job_b Example.with_a = (Returned tt, self') ∧
    reachable [Example.job_a; Example.job_b] self' ∧
    stored_jobs "changebroker" self' = [Example.job_b].
Proof.
  destruct (add_job_spec [Example.job_a] Example.with_a Example.job_b)
    as (_ & _ & Hok).
  - apply built_reachable, example_built_with_a.
  - destruct Hok as (self' & Hcall & Hreach & _ & Hstored & _).
    + compute_done.
    + compute_done.
    + exists self'. split; [exact Hcall|]. split; [exact Hreach | exact Hstored].
Defined.

(** C10: when the job's name is already registered and its phase is not
    declared, [add_job] raises the duplicate-name [JobException], which
    is not an [InvalidPhaseException]. *)
Theorem add_job_duplicate_name_first (jobs : list Job.t) (self : Pipeline.t) (job : Job.t) :
  reachable jobs self →
  Job.name job ∈ map Job.name jobs →
  Job.phase job ∉ Pipeline._phases self →
  ∃ e,
    Pipeline.add_job job self = (Raised e, self) ∧
    e = JobException ("Duplicate Job Name: " +:+ Job.name job) ∧
    is_InvalidPhaseException e = false ∧ is_PhaseException e = false.
Proof.
  intros Hreach Hdup _. eexists. split; [|done].
  rewrite add_job_run.
  destruct (decide (Job.name job ∈ _)) as [|Hfresh]; [done|].
  destruct Hfresh. by apply (cache_ok _ _ (reachable_consistent _ _ Hreach)).
Qed.

Lemma add_job_duplicate_name_first_witness :
  ∃ e,
    Pipeline.add_job (Job.mk "a" "rollback" "" None [] []) Example.loaded =
      (Raised e, Example.loaded) ∧
    e = JobException "Duplicate Job Name: a" ∧
    is_InvalidPhaseException e = false ∧ is_PhaseException e = false.
Proof.
  apply (add_job_duplicate_name_first [Example.job_a; Example.job_b] Example.loaded
           (Job.mk "a" "rollback" "" None [] [])).
  - apply built_reachable, example_built_loaded.
  - compute_done.
  - compute_done.
Defined.

(** ** A call that raises *)

(** C7: when [add_phase] or [add_job] raises, whatever the exception,
    the pipeline is in the state it was in, so [get_phases], [get_jobs]
    and [get_jobs_by_phase], for every phase name, produce what they
    produced before the call. *)
Theorem failed_call_keeps_state (self self' : Pipeline.t) (e : exn) :
  (∃ phase_name, Pipeline.add_phase phase_name self = (Raised e, self')) ∨
  (∃ job, Pipeline.add_job job self = (Raised e, self')) →
  self' = self ∧
  Pipeline.get_phases self' = Pipeline.get_phases self ∧
  Pipeline.get_jobs self' = Pipeline.get_jobs self ∧
  ∀ phase_name,
    Pipeline.get_jobs_by_phase phase_name self' =
    Pipeline.get_jobs_by_phase phase_name self.
Proof.
  intros Hfail. assert (self' = self) as ->; [|done].
  destruct Hfail as [[ph Hcall] | [job Hcall]].
  - rewrite add_phase_run in Hcall.
    destruct (decide (ph ∈ _)); by inversion Hcall.
  - rewrite add_job_run in Hcall.
    destruct (decide (Job.name job ∈ _)); [by inversion Hcall|].
    destruct (decide (Job.phase job ∈ _)); by inversion Hcall.
Qed.

Lemma failed_call_keeps_state_witness :
  let after := (Pipeline.add_job (Job.mk "c" "rollback" "" None [] []) Example.loaded).2 in
  after = Example.loaded ∧
  Pipeline.get_phases after = Pipeline.get_phases Example.loaded ∧
  Pipeline.get_jobs after = Pipeline.get_jobs Example.loaded ∧
  ∀ phase_name,
    Pipeline.get_jobs_by_phase phase_name after =
    Pipeline.get_jobs_by_phase phase_name Example.loaded.
Proof.
  apply (failed_call_keeps_state Example.loaded _
           (InvalidPhaseException "Invalid Phase Name: rollback")).
  right. exists (Job.mk "c" "rollback" "" None [] []). reflexivity.
Defined.

(** ** The jobs of one phase *)

Lemma jobs_in_phase_nil phase_name jobs :
  (∀ job, job ∈ jobs → Job.phase job ≠ phase_name) →
  jobs_in_phase phase_name jobs = [].
Proof.
  unfold jobs_in_phase. induction jobs as [|job jobs IH]; intros Hno; [done|].
  rewrite filter_cons. destruct (decide (Job.phase job = phase_name)) as [Heq|_].
  - destruct (Hno job); [left | done].
  - apply IH. intros j Hj. apply Hno. by right.
Qed.

(** C8: on a pipeline reached with the jobs [jobs], [get_jobs_by_phase]
    returns, and yields the jobs of that phase in the order they were
    added; it yields nothing, and still returns, when no job has the
    phase or the phase was never declared.  The state it leaves reads
    the same as the one it found. *)
Theorem get_jobs_by_phase_spec (jobs : list Job.t) (self : Pipeline.t) (phase_name : string) :
  reachable jobs self →
  ∃ self',
    Pipeline.get_jobs_by_phase phase_name self =
      (Returned (jobs_in_phase phase_name jobs), self') ∧
    same_view self self' ∧
    ((∀ job, job ∈ jobs → Job.phase job ≠ phase_name) →
       jobs_in_phase phase_name jobs = []) ∧
    (phase_name ∉ Pipeline._phases self → jobs_in_phase phase_name jobs = []).
Proof.
  intros Hreach. pose proof (reachable_consistent _ _ Hreach) as Hcons.
  exists (get_jobs_by_phase_state phase_name self).
  split; [by rewrite get_jobs_by_phase_run, (stored_ok _ _ Hcons)|].
  split; [apply get_jobs_by_phase_state_view|].
  split; [apply jobs_in_phase_nil|].
  intros Hundecl. apply jobs_in_phase_nil. intros job Hjob Heq.
  apply Hundecl. rewrite <- Heq. by apply (phases_ok _ _ Hcons).
Qed.

Lemma get_jobs_by_phase_spec_witness :
  ∃ self',
    Pipeline.get_jobs_by_phase "rollback" Example.loaded = (Returned [], self') ∧
    same_view Example.loaded self'.
Proof.
  destruct (get_jobs_by_phase_spec [Example.job_a; Example.job_b] Example.loaded
              "rollback")
    as (self' & Hcall & Hview & _).
  - apply built_reachable, example_built_loaded.
  - exists self'. split; [exact Hcall | exact Hview].
Defined.

(** ** Stages *)

(** C4: the ordering groups of a [Stage] are the given ones, sorted by
    [<] (ascending, or descending with [reverse]).  [get_stages] yields
    the name "group-phase" of every pair, the groups in that order
    outside and the phases as declared inside: N times M names for N
    groups and M phases, and none for an empty list of groups. *)
Theorem get_stages_spec {G : Type} `{!OrderGroup G}
    (order_groups : list G) (reverse : bool) (self : Pipeline.t) :
  (∀ a b : G, __lt__ a b = true → __lt__ b a = false) →
  (∀ a b c : G, __lt__ b a = false → __lt__ c b = false → __lt__ c a = false) →
  let st := Stage.__init__ order_groups reverse in
  let groups := Stage._order_groups st in
  groups ≡ₚ order_groups ∧
  StronglySorted
    (λ a b, if reverse then __lt__ a b = false else __lt__ b a = false) groups ∧
  ∃ phases names,
    Pipeline.get_phases self = (Returned phases, self) ∧
    Stage.get_stages st self = (Returned names, self) ∧
    names = flat_map (λ g, map (λ ph, __format__ g +:+ "-" +:+ ph) phases) groups ∧
    length names = length order_groups * length phases ∧
    (order_groups = [] → names = []).
Proof.
  intros Hasym Htrans st groups.
  split; [apply sorted_Permutation|]. split.
  { pose proof (sorted_sorted Hasym Htrans order_groups reverse) as Hsorted.
    by destruct reverse. }
  exists (Pipeline._phases self), (map snd (stage_triples st self)).
  split; [done|]. split; [apply get_stages_run|].
  split; [apply stage_names_nested|]. split.
  - rewrite stage_names_length. simpl. by rewrite sorted_length.
  - intros ->. rewrite stage_names_nested. simpl. by destruct reverse.
Qed.

Lemma get_stages_spec_witness :
  Stage._order_groups (Stage.__init__ [1; 0]%Z false) = [0; 1]%Z ∧
  Stage.get_stages (Stage.__init__ [1; 0]%Z false) Example.loaded =
    (Returned ["0-partition"; "0-changebroker"; "1-partition"; "1-changebroker"],
     Example.loaded).
Proof.
  destruct (get_stages_spec [1; 0]%Z false Example.loaded)
    as (_ & _ & phases & names & Hphases & Hcall & Hnames & _).
  - simpl. intros a b. rewrite Z.ltb_lt, Z.ltb_ge. lia.
  - simpl. intros a b c. rewrite !Z.ltb_ge. lia.
  - rewrite get_phases_run in Hphases. injection Hphases as <-.
    split; [reflexivity|]. rewrite Hcall, Hnames. reflexivity.
Defined.

(** C5: on a pipeline reached with the jobs [jobs], [get_stage_jobs]
    goes through the (group, phase, stage name) triples of
    [_get_stages], whose stage names are what [get_stages] yields, and
    for each one yields a tuple per job of that phase, in the order the
    jobs were added.  The number of tuples is the sum, over the declared
    phases, of the number of jobs of the phase times the number of
    ordering groups; a phase without jobs is in no tuple. *)
Theorem get_stage_jobs_spec {G : Type} `{!OrderGroup G}
    (order_groups : list G) (reverse : bool) (jobs : list Job.t) (self : Pipeline.t) :
  reachable jobs self →
  let st := Stage.__init__ order_groups reverse in
  ∃ triples tuples self',
    Stage._get_stages st self = (Returned triples, self) ∧
    Stage.get_stages st self = (Returned (map snd triples), self) ∧
    Stage.get_stage_jobs st self = (Returned tuples, self') ∧
    tuples =
      flat_map (λ '(g, ph, nm), map (λ job, (g, ph, nm, job)) (jobs_in_phase ph jobs))
               triples ∧
    length tuples =
      list_sum (map (λ ph, length (jobs_in_phase ph jobs) * length order_groups)
                    (Pipeline._phases self)) ∧
    (∀ ph, jobs_in_phase ph jobs = [] → ∀ g nm job, (g, ph, nm, job) ∉ tuples).
Proof.
  intros Hreach st. pose proof (reachable_consistent _ _ Hreach) as Hcons.
  destruct (get_stage_jobs_run st self) as (self' & Hcall & _).
  exists (stage_triples st self), (stage_job_tuples st self), self'.
  split; [apply _get_stages_run|]. split; [apply get_stages_run|].
  split; [exact Hcall|].
  assert (stage_job_tuples st self =
          flat_map (λ '(g, ph, nm), map (λ job, (g, ph, nm, job)) (jobs_in_phase ph jobs))
                   (stage_triples st self)) as Htuples.
  { apply flat_map_ext. intros [[g ph] nm]. by rewrite (stored_ok _ _ Hcons). }
  split; [exact Htuples|]. split.
  - rewrite stage_job_tuples_length. simpl. rewrite sorted_length.
    f_equal. apply map_ext. intros ph. by rewrite (stored_ok _ _ Hcons).
  - intros ph Hnone g nm job Hin. rewrite Htuples in Hin.
    apply list_elem_of_In, in_flat_map in Hin as ([[g' ph'] nm'] & _ & Hin).
    apply in_map_iff in Hin as (job' & Heq & Hjob). inversion Heq; subst.
    rewrite Hnone in Hjob. destruct Hjob.
Qed.

Lemma get_stage_jobs_spec_witness :
  ∃ self',
    Stage.get_stage_jobs (Stage.__init__ [1; 0]%Z false) Example.loaded =
      (Returned [(0%Z, "partition", "0-partition", Example.job_a);
                 (0%Z, "changebroker", "0-changebroker", Example.job_b);
                 (1%Z, "partition", "1-partition", Example.job_a);
                 (1%Z, "changebroker", "1-changebroker", Example.job_b)],
       self').
Proof.
  destruct (get_stage_jobs_spec [1; 0]%Z false [Example.job_a; Example.job_b]
              Example.loaded)
    as (triples & tuples & self' & Htriples & _ & Hcall & Htuples & _).
  - apply built_reachable, example_built_loaded.
  - rewrite _get_stages_run in Htriples. injection Htriples as <-.
    exists self'. rewrite Hcall, Htuples. reflexivity.
Defined.

(** C9: on a [Stage] whose pipeline is left alone, a second call of
    [get_stages] yields what the first one yielded, and so does a second
    call of [get_stage_jobs], which runs on the state the first call
    left. *)
Theorem stage_generators_restartable {G : Type} `{!OrderGroup G}
    (st : Stage.t G) (self : Pipeline.t) :
  (∃ names self1 self2,
     Stage.get_stages st self = (Returned names, self1) ∧
     Stage.get_stages st self1 = (Returned names, self2)) ∧
  (∃ tuples self1 self2,
     Stage.get_stage_jobs st self = (Returned tuples, self1) ∧
     Stage.get_stage_jobs st self1 = (Returned tuples, self2)).
Proof.
  split.
  - exists (map snd (stage_triples st self)), self, self.
    split; apply get_stages_run.
  - destruct (get_stage_jobs_run st self) as (self1 & Hfirst & Hview).
    destruct (get_stage_jobs_run st self1) as (self2 & Hsecond & _).
    exists (stage_job_tuples st self), self1, self2. split; [exact Hfirst|].
    by rewrite Hsecond, (stage_job_tuples_same_view _ _ _ Hview).
Qed.

(** * Further properties *)

(** ** Loops without yield *)

Lemma for_each_cons {A : Type} (x : A) (l : list A) (body : A → Pipeline.M unit) self :
  Loader.for_each (x :: l) body self =
    match body x self with
    | (Returned _, self') => Loader.for_each l body self'
    | (Raised e, self') => (Raised e, self')
    end.
Proof. done. Qed.

Lemma for_each_app {A : Type} (l1 l2 : list A) (body : A → Pipeline.M unit) self :
  Loader.for_each (l1 ++ l2) body self =
    match Loader.for_each l1 body self with
    | (Returned _, self') => Loader.for_each l2 body self'
    | (Raised e, self') => (Raised e, self')
    end.
Proof.
  revert self. induction l1 as [|x l1 IH]; intros self; [done|].
  rewrite <- app_comm_cons, !for_each_cons.
  destruct (body x self) as [[[]|e] s1]; [apply IH | done].
Qed.

(** ** Declaring several phases *)

Lemma set_phases_set_phases l l' self :
  Pipeline.set_phases l' (Pipeline.set_phases l self) = Pipeline.set_phases l' self.
Proof. done. Qed.

Lemma add_phases_run (names : list string) (self : Pipeline.t) :
  NoDup (Pipeline._phases self ++ names) →
  Loader.for_each names Pipeline.add_phase self =
    (Returned tt, Pipeline.set_phases (Pipeline._phases self ++ names) self).
Proof.
  revert self. induction names as [|x names IH]; intros self Hnd.
  - simpl. rewrite app_nil_r. by destruct self.
  - rewrite for_each_cons, add_phase_fresh.
    + rewrite IH; simpl; rewrite <- app_assoc; done.
    + apply NoDup_app in Hnd as (_ & Hdisj & _).
      intros Hin. apply (Hdisj x Hin). by left.
Qed.

Lemma add_phases_duplicate (names : list string) (self : Pipeline.t) :
  NoDup (Pipeline._phases self) →
  ¬ NoDup (Pipeline._phases self ++ names) →
  ∃ self', Loader.for_each names Pipeline.add_phase self =
             (Raised (NameError "name 'phase' is not defined"), self').
Proof.
  revert self. induction names as [|x names IH]; intros self Hnd Hdup.
  - destruct Hdup. by rewrite app_nil_r.
  - rewrite for_each_cons.
    destruct (decide (x ∈ Pipeline._phases self)) as [Hin|Hfresh].
    + rewrite add_phase_duplicate by done. by eexists.
    + rewrite add_phase_fresh by done. apply IH; simpl.
      * by apply NoDup_snoc.
      * by rewrite <- app_assoc.
Qed.

(** X1: declaring, one after the other, names that are distinct and not
    yet declared succeeds; [get_phases] then yields the phases there
    were followed by the new ones, in the order of the calls, and the
    jobs are untouched. *)
Theorem add_phases_in_order (names : list string) (self : Pipeline.t) :
  NoDup names →
  (∀ n, n ∈ names → n ∉ Pipeline._phases self) →
  NoDup (Pipeline._phases self) →
  ∃ self',
    Loader.for_each names Pipeline.add_phase self = (Returned tt, self') ∧
    Pipeline.get_phases self' = (Returned (Pipeline._phases self ++ names), self') ∧
    Pipeline._job_phase self' = Pipeline._job_phase self ∧
    Pipeline._job_name_cache self' = Pipeline._job_name_cache self.
Proof.
  intros Hnames Hfresh Hphases.
  exists (Pipeline.set_phases (Pipeline._phases self ++ names) self).
  split; [|done].
  apply add_phases_run. apply NoDup_app. repeat split; [done | | done].
  intros n Hn Hn'. by apply (Hfresh n).
Qed.

Lemma add_phases_in_order_witness :
  ∃ self',
    Loader.for_each ["rollback"; "verify"] Pipeline.add_phase Example.loaded =
      (Returned tt, self') ∧
    Pipeline.get_phases self' =
      (Returned ["partition"; "changebroker"; "rollback"; "verify"], self').
Proof.
  destruct (add_phases_in_order ["rollback"; "verify"] Example.loaded)
    as (self' & Hrun & Hphases & _).
  - compute_done.
  - intros n Hn. apply list_elem_of_In in Hn. simpl in Hn.
    destruct Hn as [<-|[<-|[]]]; compute_done.
  - compute_done.
  - exists self'. split; [exact Hrun | exact Hphases].
Defined.

(** ** Invariants of a pipeline *)

(** X2: whatever calls a pipeline has received, its phases are distinct,
    the jobs it accepted have distinct names, each is bound to a
    declared phase, and the name cache holds exactly their names. *)
Theorem reachable_invariants (jobs : list Job.t) (self : Pipeline.t) :
  reachable jobs self →
  NoDup (Pipeline._phases self) ∧
  NoDup (map Job.name jobs) ∧
  (∀ job, job ∈ jobs → Job.phase job ∈ Pipeline._phases self) ∧
  (∀ n, n ∈ Pipeline._job_name_cache self ↔ ∃ job, job ∈ jobs ∧ Job.name job = n).
Proof.
  intros Hreach. destruct (reachable_consistent _ _ Hreach) as [_ _ Hc Hp Hj Hn].
  repeat split; try done.
  - intros Hin. apply Hc, list_elem_of_fmap in Hin as (job & -> & Hjob). by exists job.
  - intros (job & Hjob & <-). apply Hc, list_elem_of_fmap. by exists job.
Qed.

Lemma reachable_invariants_witness :
  NoDup (Pipeline._phases Example.loaded) ∧
  NoDup (map Job.name [Example.job_a; Example.job_b]).
Proof.
  destruct (reachable_invariants [Example.job_a; Example.job_b] Example.loaded)
    as (Hphases & Hnames & _).
  - apply built_reachable, example_built_loaded.
  - split; [exact Hphases | exact Hnames].
Defined.

Lemma consistent_keys_cover jobs self job :
  consistent jobs self → job ∈ jobs →
  Job.phase job ∈ dict_keys (Pipeline._job_phase self).
Proof.
  intros Hcons Hjob.
  destruct (decide (Job.phase job ∈ dict_keys (Pipeline._job_phase self)))
    as [|Hout]; [done|].
  apply dict_get_None in Hout.
  pose proof (stored_ok _ _ Hcons (Job.phase job)) as Hstored.
  unfold stored_jobs in Hstored. rewrite Hout in Hstored. simpl in Hstored.
  assert (job ∈ jobs_in_phase (Job.phase job) jobs) as Hin
    by (by apply list_elem_of_filter).
  rewrite <- Hstored in Hin. by apply not_elem_of_nil in Hin.
Qed.

(** X3: on every reachable pipeline, reads in between included,
    [get_jobs] yields the accepted jobs, each one once, and leaves the
    pipeline as it is. *)
Theorem get_jobs_each_job_once (jobs : list Job.t) (self : Pipeline.t) :
  reachable jobs self →
  ∃ out,
    Pipeline.get_jobs self = (Returned out, self) ∧ out ≡ₚ jobs ∧ NoDup out.
Proof.
  intros Hreach. pose proof (reachable_consistent _ _ Hreach) as Hcons.
  eexists. split; [apply get_jobs_run|].
  assert (flat_map (λ item, item.2) (Pipeline._job_phase self) ≡ₚ jobs) as Hperm.
  { rewrite dict_items_by_key by apply Hcons.
    rewrite (flat_map_ext _ (λ k, jobs_in_phase k jobs))
      by (intros k; apply (stored_ok _ _ Hcons)).
    apply jobs_by_phase_Permutation; [apply Hcons|].
    intros job Hjob. by eapply consistent_keys_cover. }
  split; [exact Hperm|]. rewrite Hperm.
  eapply NoDup_fmap_1, (names_nodup _ _ Hcons).
Qed.

Lemma get_jobs_each_job_once_witness :
  ∃ out,
    Pipeline.get_jobs Example.loaded = (Returned out, Example.loaded) ∧
    out ≡ₚ [Example.job_a; Example.job_b] ∧ NoDup out.
Proof.
  apply (get_jobs_each_job_once [Example.job_a; Example.job_b] Example.loaded).
  apply built_reachable, example_built_loaded.
Defined.

Lemma flat_map_sublist {A : Type} (f : string → list A) (l1 l2 : list string) :
  sublist l1 l2 → NoDup l2 →
  (∀ k, k ∈ l2 → k ∉ l1 → f k = []) →
  flat_map f l1 = flat_map f l2.
Proof.
  induction 1 as [|x l1 l2 Hsub IH|x l1 l2 Hsub IH]; intros Hnd Hnil; [done| |].
  - apply NoDup_cons in Hnd as [Hx Hnd]. simpl. f_equal. apply IH; [done|].
    intros k Hk Hk'. apply Hnil; [by right|].
    intros Hin. apply elem_of_cons in Hin as [->|Hin]; done.
  - apply NoDup_cons in Hnd as [Hx Hnd]. simpl. rewrite Hnil.
    + apply IH; [done|]. intros k Hk Hk'. apply Hnil; [by right | done].
    + by left.
    + intros Hin. apply Hx. by eapply elem_of_sublist.
Qed.

(** X4: when the phases receive their first job in the order in which
    they were declared, [get_jobs] on a built pipeline yields the jobs
    phase by phase in declaration order, in insertion order within a
    phase. *)
Theorem get_jobs_declaration_order (jobs : list Job.t) (self : Pipeline.t) :
  built jobs self →
  sublist (first_seen (map Job.phase jobs)) (Pipeline._phases self) →
  Pipeline.get_jobs self = (Returned (jobs_in_declaration_order self jobs), self).
Proof.
  intros Hbuilt Hsub.
  pose proof (reachable_consistent _ _ (built_reachable _ _ Hbuilt)) as Hcons.
  rewrite get_jobs_run. f_equal. f_equal.
  rewrite dict_items_by_key by apply Hcons.
  rewrite (built_keys _ _ Hbuilt).
  rewrite (flat_map_ext _ (λ k, jobs_in_phase k jobs))
    by (intros k; apply (stored_ok _ _ Hcons)).
  unfold jobs_in_declaration_order.
  apply flat_map_sublist; [done | apply Hcons|].
  intros k _ Hk. apply jobs_in_phase_nil. intros job Hjob Heq.
  apply Hk, first_seen_elem_of, list_elem_of_fmap. by exists job.
Qed.

Lemma get_jobs_declaration_order_witness :
  Pipeline.get_jobs Example.loaded =
    (Returned (jobs_in_declaration_order Example.loaded [Example.job_a; Example.job_b]),
     Example.loaded).
Proof.
  apply (get_jobs_declaration_order [Example.job_a; Example.job_b] Example.loaded).
  - apply example_built_loaded.
  - apply sublist_skip, sublist_skip, sublist_nil.
Defined.

(** ** Reading leaves the readers alone *)

Lemma same_items_reads self self' : same_items self self' → same_reads self self'.
Proof.
  intros [(Hp & _ & Hs) Hitems]. split; [|split].
  - rewrite !get_phases_run. simpl. by rewrite Hp.
  - rewrite !get_jobs_run. simpl. by rewrite Hitems.
  - intros ph. rewrite !get_jobs_by_phase_run. simpl. by rewrite Hs.
Qed.

Lemma same_items_trans s1 s2 s3 : same_items s1 s2 → same_items s2 s3 → same_items s1 s3.
Proof.
  intros [Hv Hi] [Hv' Hi']. split; [by eapply same_view_trans | congruence].
Qed.

Lemma get_jobs_by_phase_state_items phase_name self :
  same_items self (get_jobs_by_phase_state phase_name self).
Proof.
  split; [apply get_jobs_by_phase_state_view|].
  unfold get_jobs_by_phase_state, defaultdict_getitem. simpl.
  destruct (dict_get phase_name (Pipeline._job_phase self)); simpl; [done|].
  rewrite flat_map_app. simpl. by rewrite app_nil_r.
Qed.

(** X5: [get_jobs_by_phase], which may insert an empty list in
    [_job_phase], changes nothing of what [get_phases], [get_jobs] and
    [get_jobs_by_phase] yield afterwards, on any pipeline and for any
    phase name. *)
Theorem get_jobs_by_phase_keeps_reads (phase_name : string) (self : Pipeline.t) :
  same_reads self (Pipeline.get_jobs_by_phase phase_name self).2.
Proof.
  rewrite get_jobs_by_phase_run. simpl.
  apply same_items_reads, get_jobs_by_phase_state_items.
Qed.

(** X6: [get_stage_jobs], which calls [get_jobs_by_phase] for every
    stage, changes nothing of what [get_phases], [get_jobs] and
    [get_jobs_by_phase] yield afterwards. *)
Theorem get_stage_jobs_keeps_reads {G : Type} `{!OrderGroup G}
    (st : Stage.t G) (self : Pipeline.t) :
  same_reads self (Stage.get_stage_jobs st self).2.
Proof.
  apply same_items_reads.
  destruct (Stage.get_stage_jobs st self) as [r self'] eqn:Hrun. simpl.
  revert Hrun. unfold Stage.get_stage_jobs, mbind at 1, Pipeline.M_bind at 1.
  rewrite _get_stages_run.
  apply (for_yield_invariant (same_items self)); [|by split].
  intros [[g ph] nm] s r' s' Hs Hbody.
  unfold mbind, Pipeline.M_bind in Hbody.
  rewrite get_jobs_by_phase_run, for_yield_singletons in Hbody.
  inversion Hbody; subst.
  eapply same_items_trans; [exact Hs | apply get_jobs_by_phase_state_items].
Qed.

(** ** A rejected job can be added later *)

(** X7: a job refused for its phase leaves no name behind: once the
    phase is declared, the same job is accepted. *)
Theorem add_job_after_declaring_phase (jobs : list Job.t) (self : Pipeline.t) (job : Job.t) :
  reachable jobs self →
  Job.name job ∉ map Job.name jobs →
  Job.phase job ∉ Pipeline._phases self →
  ∃ self1 self2,
    Pipeline.add_job job self =
      (Raised (InvalidPhaseException ("Invalid Phase Name: " +:+ Job.phase job)), self) ∧
    Pipeline.add_phase (Job.phase job) self = (Returned tt, self1) ∧
    Pipeline.add_job job self1 = (Returned tt, self2) ∧
    reachable (jobs ++ [job]) self2.
Proof.
  intros Hreach Hname Hphase.
  pose proof (reachable_consistent _ _ Hreach) as Hcons.
  rewrite <- (cache_ok _ _ Hcons) in Hname.
  exists (Pipeline.set_phases (Pipeline._phases self ++ [Job.phase job]) self).
  eexists. split; [|split; [by apply add_phase_fresh|]].
  - rewrite add_job_run. destruct (decide (Job.name job ∈ _)); [done|].
    by destruct (decide (Job.phase job ∈ _)).
  - assert (Pipeline.add_job job
              (Pipeline.set_phases (Pipeline._phases self ++ [Job.phase job]) self) =
            (Returned tt,
             add_job_state job
               (Pipeline.set_phases (Pipeline._phases self ++ [Job.phase job]) self)))
      as Hadd.
    { rewrite add_job_run. simpl.
      destruct (decide (Job.name job ∈ _)); [done|].
      destruct (decide (Job.phase job ∈ _)) as [|Hout]; [done|].
      destruct Hout. apply elem_of_app. right. by left. }
    split; [exact Hadd|].
    eapply reachable_add_job; [|exact Hadd].
    eapply reachable_add_phase; [exact Hreach | by apply add_phase_fresh].
Qed.

Lemma add_job_after_declaring_phase_witness :
  ∃ self1 self2,
    Pipeline.add_phase "rollback" Example.loaded = (Returned tt, self1) ∧
    Pipeline.add_job (Job.mk "c" "rollback" "" None [] []) self1 = (Returned tt, self2).
Proof.
  destruct (add_job_after_declaring_phase [Example.job_a; Example.job_b] Example.loaded
              (Job.mk "c" "rollback" "" None [] []))
    as (self1 & self2 & _ & Hphase & Hjob & _).
  - apply built_reachable, example_built_loaded.
  - compute_done.
  - compute_done.
  - exists self1, self2. split; [exact Hphase | exact Hjob].
Defined.

(** ** The tuples of a stage expansion *)

(** X8: on a reachable pipeline, the tuples [get_stage_jobs] yields are
    exactly those that pair an ordering group with an accepted job,
    under the job's own phase and the stage name of the two. *)
Theorem get_stage_jobs_membership {G : Type} `{!OrderGroup G}
    (order_groups : list G) (reverse : bool) (jobs : list Job.t) (self : Pipeline.t) :
  reachable jobs self →
  ∃ tuples self',
    Stage.get_stage_jobs (Stage.__init__ order_groups reverse) self =
      (Returned tuples, self') ∧
    ∀ g ph nm job,
      (g, ph, nm, job) ∈ tuples ↔
      g ∈ order_groups ∧ job ∈ jobs ∧ ph = Job.phase job ∧
      nm = __format__ g +:+ "-" +:+ ph.
Proof.
  intros Hreach. pose proof (reachable_consistent _ _ Hreach) as Hcons.
  destruct (get_stage_jobs_run (Stage.__init__ order_groups reverse) self)
    as (self' & Hrun & _).
  eexists _, self'. split; [exact Hrun|].
  intros g ph nm job. rewrite stage_job_tuples_nested, list_elem_of_In, in_flat_map.
  simpl. split.
  - intros (g' & Hg' & Hin). apply in_flat_map in Hin as (ph' & Hph' & Hin).
    apply in_map_iff in Hin as (job' & Heq & Hjob'). inversion Heq; subst.
    apply list_elem_of_In in Hg', Hjob'.
    rewrite (stored_ok _ _ Hcons) in Hjob'.
    apply list_elem_of_filter in Hjob' as [Hphase Hjob'].
    rewrite sorted_Permutation in Hg'. done.
  - intros (Hg & Hjob & -> & ->). exists g. split.
    + apply list_elem_of_In. by rewrite sorted_Permutation.
    + apply in_flat_map. exists (Job.phase job). split.
      * apply list_elem_of_In. by apply (phases_ok _ _ Hcons).
      * apply in_map_iff. exists job. split; [done|].
        apply list_elem_of_In. rewrite (stored_ok _ _ Hcons).
        by apply list_elem_of_filter.
Qed.

Lemma get_stage_jobs_membership_witness :
  ∃ tuples self',
    Stage.get_stage_jobs (Stage.__init__ [1; 0]%Z true) Example.loaded =
      (Returned tuples, self') ∧
    (1%Z, "changebroker", "1-changebroker", Example.job_b) ∈ tuples.
Proof.
  destruct (get_stage_jobs_membership [1; 0]%Z true [Example.job_a; Example.job_b]
              Example.loaded)
    as (tuples & self' & Hrun & Hin).
  - apply built_reachable, example_built_loaded.
  - exists tuples, self'. split; [exact Hrun|].
    apply Hin. split; [left|]. split; [right; left|]. split; reflexivity.
Defined.

(** X11: with no ordering group, or on a pipeline without phases,
    [get_stages] and [get_stage_jobs] yield nothing and leave the
    pipeline as it is. *)
Theorem nothing_to_expand {G : Type} `{!OrderGroup G}
    (order_groups : list G) (reverse : bool) (self : Pipeline.t) :
  order_groups = [] ∨ Pipeline._phases self = [] →
  Stage.get_stages (Stage.__init__ order_groups reverse) self = (Returned [], self) ∧
  Stage.get_stage_jobs (Stage.__init__ order_groups reverse) self = (Returned [], self).
Proof.
  intros Hempty.
  assert (stage_triples (Stage.__init__ order_groups reverse) self = []) as Hnone.
  { unfold stage_triples, product. destruct Hempty as [-> | ->].
    - by destruct reverse.
    - simpl. by rewrite flat_map_nil. }
  split.
  - by rewrite get_stages_run, Hnone.
  - unfold Stage.get_stage_jobs, mbind, Pipeline.M_bind.
    by rewrite _get_stages_run, Hnone.
Qed.

Lemma nothing_to_expand_witness :
  Stage.get_stages (Stage.__init__ [2; 1]%Z false) Pipeline.__init__ =
    (Returned [], Pipeline.__init__) ∧
  Stage.get_stage_jobs (Stage.__init__ [2; 1]%Z false) Pipeline.__init__ =
    (Returned [], Pipeline.__init__).
Proof.
  apply (nothing_to_expand [2; 1]%Z false Pipeline.__init__).
  right. reflexivity.
Defined.

(** ** Ordering groups under a total order *)

Section TotalOrder.
Context {G : Type} `{!OrderGroup G}.
Hypothesis lt_asym : ∀ a b : G, __lt__ a b = true → __lt__ b a = false.
Hypothesis ge_trans : ∀ a b c : G, __lt__ b a = false → __lt__ c b = false → __lt__ c a = false.
Hypothesis lt_total : ∀ a b : G, __lt__ a b = false → __lt__ b a = false → a = b.

Lemma not_after_antisymm : AntiSymm (=) (not_after (G := G)).
Proof. intros a b Hab Hba. by apply lt_total. Qed.

Lemma list_sort_Permutation_eq (l l' : list G) :
  l ≡ₚ l' → list_sort l = list_sort l'.
Proof.
  intros Hperm. apply (@StronglySorted_unique G not_after not_after_antisymm).
  - by apply list_sort_sorted.
  - by apply list_sort_sorted.
  - by rewrite !list_sort_Permutation.
Qed.

Lemma sorted_Permutation_eq (l l' : list G) (rev : bool) :
  l ≡ₚ l' → sorted l rev = sorted l' rev.
Proof.
  intros Hperm. destruct rev; simpl; [f_equal|]; apply list_sort_Permutation_eq;
    [by rewrite !reverse_Permutation | done].
Qed.

Lemma sorted_reverse_eq (l : list G) : sorted l true = reverse (sorted l false).
Proof.
  simpl. f_equal. apply list_sort_Permutation_eq, reverse_Permutation.
Qed.
End TotalOrder.

(** X9: when [<] is a total order on the ordering groups, the order in
    which the caller lists them does not matter: two lists with the
    same elements give the same [Stage], hence the same stages and
    stage jobs. *)
Theorem stage_order_independent {G : Type} `{!OrderGroup G}
    (l l' : list G) (reverse : bool) (self : Pipeline.t) :
  (∀ a b : G, __lt__ a b = true → __lt__ b a = false) →
  (∀ a b c : G, __lt__ b a = false → __lt__ c b = false → __lt__ c a = false) →
  (∀ a b : G, __lt__ a b = false → __lt__ b a = false → a = b) →
  l ≡ₚ l' →
  Stage.__init__ l reverse = Stage.__init__ l' reverse ∧
  Stage.get_stages (Stage.__init__ l reverse) self =
    Stage.get_stages (Stage.__init__ l' reverse) self ∧
  Stage.get_stage_jobs (Stage.__init__ l reverse) self =
    Stage.get_stage_jobs (Stage.__init__ l' reverse) self.
Proof.
  intros Hasym Htrans Htotal Hperm.
  assert (Stage.__init__ l reverse = Stage.__init__ l' reverse) as ->; [|done].
  unfold Stage.__init__. f_equal. by apply sorted_Permutation_eq.
Qed.

Lemma stage_order_independent_witness :
  Stage.__init__ [2; 0; 1]%Z false = Stage.__init__ [1; 2; 0]%Z false ∧
  Stage.get_stages (Stage.__init__ [2; 0; 1]%Z false) Example.loaded =
    Stage.get_stages (Stage.__init__ [1; 2; 0]%Z false) Example.loaded ∧
  Stage.get_stage_jobs (Stage.__init__ [2; 0; 1]%Z false) Example.loaded =
    Stage.get_stage_jobs (Stage.__init__ [1; 2; 0]%Z false) Example.loaded.
Proof.
  apply (stage_order_independent [2; 0; 1]%Z [1; 2; 0]%Z false Example.loaded).
  - simpl. intros a b. rewrite Z.ltb_lt, Z.ltb_ge. lia.
  - simpl. intros a b c. rewrite !Z.ltb_ge. lia.
  - simpl. intros a b. rewrite !Z.ltb_ge. lia.
  - etrans; [apply (Permutation_cons_append [0; 1]%Z 2%Z)|].
    apply (Permutation_cons_append [1; 2]%Z 0%Z).
Defined.

(** X10: when [<] is a total order on the ordering groups, a [Stage]
    built with [reverse] holds the groups of the [Stage] built without
    it, last first. *)
Theorem stage_reverse_groups {G : Type} `{!OrderGroup G} (l : list G) :
  (∀ a b : G, __lt__ a b = true → __lt__ b a = false) →
  (∀ a b c : G, __lt__ b a = false → __lt__ c b = false → __lt__ c a = false) →
  (∀ a b : G, __lt__ a b = false → __lt__ b a = false → a = b) →
  Stage._order_groups (Stage.__init__ l true) =
    reverse (Stage._order_groups (Stage.__init__ l false)).
Proof. intros Hasym Htrans Htotal. by apply sorted_reverse_eq. Qed.

Lemma stage_reverse_groups_witness :
  Stage._order_groups (Stage.__init__ [1; 3; 2]%Z true) =
    reverse (Stage._order_groups (Stage.__init__ [1; 3; 2]%Z false)).
Proof.
  apply (stage_reverse_groups [1; 3; 2]%Z).
  - simpl. intros a b. rewrite Z.ltb_lt, Z.ltb_ge. lia.
  - simpl. intros a b c. rewrite !Z.ltb_ge. lia.
  - simpl. intros a b. rewrite !Z.ltb_ge. lia.
Defined.

(** ** Loading *)

Lemma load_job_run n v self :
  Loader.load_job (n, v) self =
    if decide (n = "") then (Raised (JobException "Job Name is Required"), self)
    else Pipeline.add_job (Loader.job_of_config (n, v)) self.
Proof.
  unfold Loader.load_job, Loader.lift, mbind, Pipeline.M_bind, Job.__init__.
  destruct n as [|c n]; simpl; [done|].
  by destruct (decide (String c n = "")).
Qed.

Lemma add_phases_built names : ∀ jobs self self',
  built jobs self →
  Loader.for_each names Pipeline.add_phase self = (Returned tt, self') →
  built jobs self'.
Proof.
  induction names as [|x names IH]; intros jobs self self' Hbuilt Hrun.
  - by inversion Hrun; subst.
  - rewrite for_each_cons in Hrun.
    destruct (Pipeline.add_phase x self) as [[[]|e] s1] eqn:Hx; [|done].
    eapply IH; [|exact Hrun]. by eapply built_add_phase.
Qed.

(** The loop over the jobs, when it returns. *)
Lemma load_jobs_returned items : ∀ jobs0 self self',
  built jobs0 self →
  Loader.for_each items Loader.load_job self = (Returned tt, self') →
  NoDup (map Job.name jobs0 ++ dict_keys items) ∧
  Forall (good_item (Pipeline._phases self)) items ∧
  built (jobs0 ++ map Loader.job_of_config items) self' ∧
  Pipeline._phases self' = Pipeline._phases self ∧
  Pipeline.template self' = Pipeline.template self ∧
  Pipeline.host_order_label self' = Pipeline.host_order_label self.
Proof.
  induction items as [|[n v] items IH]; intros jobs0 self self' Hbuilt Hrun.
  - inversion Hrun; subst. simpl. rewrite !app_nil_r.
    repeat split; [|constructor|done].
    apply (names_nodup _ _ (reachable_consistent _ _ (built_reachable _ _ Hbuilt))).
  - rewrite for_each_cons, load_job_run in Hrun.
    destruct (decide (n = "")) as [|Hname]; [done|].
    pose proof (reachable_consistent _ _ (built_reachable _ _ Hbuilt)) as Hcons.
    rewrite add_job_run in Hrun. simpl in Hrun.
    destruct (decide (n ∈ _)) as [|Hfresh]; [done|].
    destruct (decide (JobConfig.phase v ∈ _)) as [Hphase|]; [|done].
    set (job := Loader.job_of_config (n, v)) in *.
    assert (built (jobs0 ++ [job]) (add_job_state job self)) as Hbuilt1.
    { eapply built_add_job; [exact Hbuilt|]. rewrite add_job_run. simpl.
      destruct (decide (n ∈ _)); [done|].
      by destruct (decide (JobConfig.phase v ∈ _)). }
    destruct (IH _ _ _ Hbuilt1 Hrun) as (Hnd & Hgood & Hb & Hp & Ht & Hh).
    rewrite map_app, <- app_assoc in Hnd. simpl in *.
    rewrite <- app_assoc in Hb.
    repeat split; try done. constructor; [by split | done].
Qed.

(** The loop over the jobs, when every item is acceptable. *)
Lemma load_jobs_run items : ∀ jobs0 self,
  built jobs0 self →
  NoDup (map Job.name jobs0 ++ dict_keys items) →
  Forall (good_item (Pipeline._phases self)) items →
  ∃ self', Loader.for_each items Loader.load_job self = (Returned tt, self').
Proof.
  induction items as [|[n v] items IH]; intros jobs0 self Hbuilt Hnd Hgood.
  - by eexists.
  - apply Forall_cons in Hgood as [[Hname Hphase] Hgood].
    simpl in Hnd, Hname, Hphase.
    pose proof (reachable_consistent _ _ (built_reachable _ _ Hbuilt)) as Hcons.
    assert (n ∉ Pipeline._job_name_cache self) as Hfresh.
    { rewrite (cache_ok _ _ Hcons). intros Hin.
      apply NoDup_app in Hnd as (_ & Hdisj & _). apply (Hdisj n Hin). by left. }
    set (job := Loader.job_of_config (n, v)).
    assert (Pipeline.add_job job self = (Returned tt, add_job_state job self)) as Hadd.
    { rewrite add_job_run. simpl. destruct (decide (n ∈ _)); [done|].
      by destruct (decide (JobConfig.phase v ∈ _)). }
    destruct (IH (jobs0 ++ [job]) (add_job_state job self)) as (self' & Hrest).
    + by eapply built_add_job.
    + rewrite map_app, <- app_assoc. done.
    + done.
    + exists self'. rewrite for_each_cons, load_job_run.
      destruct (decide (n = "")); [done|]. fold job. by rewrite Hadd.
Qed.

(** The loop over the jobs, when it raises and the names are distinct. *)
Lemma load_jobs_raised items : ∀ jobs0 self e self',
  built jobs0 self →
  NoDup (map Job.name jobs0 ++ dict_keys items) →
  Loader.for_each items Loader.load_job self = (Raised e, self') →
  e = JobException "Job Name is Required" ∨
  ∃ ph, e = InvalidPhaseException ("Invalid Phase Name: " +:+ ph).
Proof.
  induction items as [|[n v] items IH]; intros jobs0 self e self' Hbuilt Hnd Hrun.
  - done.
  - rewrite for_each_cons, load_job_run in Hrun. simpl in Hnd.
    destruct (decide (n = "")) as [|Hname]; [left; by inversion Hrun|].
    pose proof (reachable_consistent _ _ (built_reachable _ _ Hbuilt)) as Hcons.
    rewrite add_job_run in Hrun. simpl in Hrun.
    destruct (decide (n ∈ _)) as [Hin|Hfresh].
    { apply (cache_ok _ _ Hcons) in Hin.
      apply NoDup_app in Hnd as (_ & Hdisj & _). destruct (Hdisj n Hin). by left. }
    destruct (decide (JobConfig.phase v ∈ _)) as [Hphase|].
    + set (job := Loader.job_of_config (n, v)) in *.
      apply (IH (jobs0 ++ [job]) _ _ _) in Hrun; [done| |].
      * eapply built_add_job; [exact Hbuilt|]. rewrite add_job_run. simpl.
        destruct (decide (n ∈ _)); [done|].
        by destruct (decide (JobConfig.phase v ∈ _)).
      * rewrite map_app, <- app_assoc. done.
    + right. inversion Hrun; subst. by eexists.
Qed.

Lemma load_steps_run `{!FileSystem} (pipeline_config : PipelineConfig.t) :
  os_path_exists (PipelineConfig.template pipeline_config) = true →
  Loader.load_steps pipeline_config Pipeline.__init__ =
    match Loader.for_each (PipelineConfig.phases pipeline_config) Pipeline.add_phase
            (load_start pipeline_config) with
    | (Returned _, self) =>
        Loader.for_each (PipelineConfig.jobs pipeline_config) Loader.load_job self
    | (Raised e, self) => (Raised e, self)
    end.
Proof.
  intros Hexists.
  unfold Loader.load_steps, Loader.with_full_path, Loader.lift, mbind, Pipeline.M_bind.
  rewrite Hexists. simpl. unfold Pipeline.modify. simpl. fold (load_start pipeline_config).
  by destruct (Loader.for_each _ Pipeline.add_phase _) as [[[]|e] s].
Qed.

Lemma load_start_built `{!FileSystem} (pipeline_config : PipelineConfig.t) :
  built [] (load_start pipeline_config).
Proof. apply built_set_host_order_label, built_set_template, built_init. Qed.

Lemma job_of_config_names items :
  map Job.name (map Loader.job_of_config items) = dict_keys items.
Proof. unfold dict_keys. by rewrite map_map. Qed.

Lemma load_missing `{!FileSystem} (pipeline_config : PipelineConfig.t) :
  os_path_exists (PipelineConfig.template pipeline_config) = false →
  Loader.load_pipeline_from_config pipeline_config =
    Raised (InvalidJobTemplateException
              ("Invalid Path: " +:+ PipelineConfig.template pipeline_config)).
Proof.
  intros Hmissing.
  unfold Loader.load_pipeline_from_config, Loader.load_steps, Loader.with_full_path,
    Loader.lift, mbind, Pipeline.M_bind.
  by rewrite Hmissing.
Qed.

Lemma load_phases_run `{!FileSystem} (pipeline_config : PipelineConfig.t) :
  NoDup (PipelineConfig.phases pipeline_config) →
  Loader.for_each (PipelineConfig.phases pipeline_config) Pipeline.add_phase
    (load_start pipeline_config) =
  (Returned tt,
   Pipeline.set_phases (PipelineConfig.phases pipeline_config) (load_start pipeline_config)).
Proof. intros Hnd. by rewrite add_phases_run. Qed.

Lemma load_phases_built `{!FileSystem} (pipeline_config : PipelineConfig.t) :
  NoDup (PipelineConfig.phases pipeline_config) →
  built [] (Pipeline.set_phases (PipelineConfig.phases pipeline_config)
              (load_start pipeline_config)).
Proof.
  intros Hnd. eapply add_phases_built; [apply load_start_built|].
  by apply load_phases_run.
Qed.

(** Everything a load that returns tells. *)
Lemma load_returned `{!FileSystem} (pipeline_config : PipelineConfig.t) pipeline :
  Loader.load_pipeline_from_config pipeline_config = Returned pipeline →
  os_path_exists (PipelineConfig.template pipeline_config) = true ∧
  NoDup (PipelineConfig.phases pipeline_config) ∧
  NoDup (dict_keys (PipelineConfig.jobs pipeline_config)) ∧
  Forall (good_item (PipelineConfig.phases pipeline_config))
         (PipelineConfig.jobs pipeline_config) ∧
  built (map Loader.job_of_config (PipelineConfig.jobs pipeline_config)) pipeline ∧
  Pipeline._phases pipeline = PipelineConfig.phases pipeline_config ∧
  Pipeline.template pipeline =
    os_path_realpath (PipelineConfig.template pipeline_config) ∧
  Pipeline.host_order_label pipeline =
    Some (PipelineConfig.host_order_label pipeline_config).
Proof.
  intros Hload.
  destruct (os_path_exists (PipelineConfig.template pipeline_config)) eqn:Hexists;
    [|by rewrite load_missing in Hload].
  unfold Loader.load_pipeline_from_config in Hload.
  rewrite load_steps_run in Hload by done.
  destruct (decide (NoDup (PipelineConfig.phases pipeline_config))) as [Hnd|Hdup].
  - rewrite load_phases_run in Hload by done.
    destruct (Loader.for_each (PipelineConfig.jobs pipeline_config) _ _)
      as [[[]|e] s] eqn:Hjobs; [|done].
    inversion Hload; subst.
    apply (load_jobs_returned _ [] _ _ (load_phases_built _ Hnd)) in Hjobs
      as (Hkeys & Hgood & Hbuilt & Hp & Ht & Hh).
    simpl in *. done.
  - destruct (add_phases_duplicate (PipelineConfig.phases pipeline_config)
                (load_start pipeline_config)) as (s & Hs);
      [apply NoDup_nil_2 | done |].
    by rewrite Hs in Hload.
Qed.

(** X12: a template path that does not exist aborts the load with
    [InvalidJobTemplateException], whatever the phases and the jobs of
    the configuration. *)
Theorem load_missing_template `{!FileSystem} (pipeline_config : PipelineConfig.t) :
  os_path_exists (PipelineConfig.template pipeline_config) = false →
  Loader.load_pipeline_from_config pipeline_config =
    Raised (InvalidJobTemplateException
              ("Invalid Path: " +:+ PipelineConfig.template pipeline_config)) ∧
  Loader.with_full_path (PipelineConfig.template pipeline_config) =
    Raised (InvalidJobTemplateException
              ("Invalid Path: " +:+ PipelineConfig.template pipeline_config)).
Proof.
  intros Hmissing. split; [by apply load_missing|].
  unfold Loader.with_full_path. by rewrite Hmissing.
Qed.

Lemma load_missing_template_witness :
  @Loader.load_pipeline_from_config LoaderExample.fs
      LoaderExample.config_missing_template =
    Raised (InvalidJobTemplateException "Invalid Path: templates/absent.yml") ∧
  @Loader.with_full_path LoaderExample.fs "templates/absent.yml" =
    Raised (InvalidJobTemplateException "Invalid Path: templates/absent.yml").
Proof.
  apply (@load_missing_template LoaderExample.fs LoaderExample.config_missing_template).
  reflexivity.
Defined.

(** X13: a load returns a pipeline exactly when the template exists,
    the phases are distinct, the job names are distinct and not empty,
    and every job names a declared phase. *)
Theorem load_returns_iff `{!FileSystem} (pipeline_config : PipelineConfig.t) :
  (∃ pipeline, Loader.load_pipeline_from_config pipeline_config = Returned pipeline) ↔
  os_path_exists (PipelineConfig.template pipeline_config) = true ∧
  NoDup (PipelineConfig.phases pipeline_config) ∧
  NoDup (dict_keys (PipelineConfig.jobs pipeline_config)) ∧
  ∀ job_name job_v,
    (job_name, job_v) ∈ PipelineConfig.jobs pipeline_config →
    job_name ≠ "" ∧ JobConfig.phase job_v ∈ PipelineConfig.phases pipeline_config.
Proof.
  split.
  - intros (pipeline & Hload).
    apply load_returned in Hload as (He & Hp & Hk & Hgood & _).
    repeat split; try done; rewrite Forall_forall in Hgood;
      by apply (Hgood (job_name, job_v)).
  - intros (Hexists & Hnd & Hkeys & Hgood).
    destruct (load_jobs_run (PipelineConfig.jobs pipeline_config) []
                (Pipeline.set_phases (PipelineConfig.phases pipeline_config)
                   (load_start pipeline_config)))
      as (pipeline & Hjobs); [by apply load_phases_built | done | |].
    + apply Forall_forall. intros [n v] Hin. by apply Hgood.
    + exists pipeline. unfold Loader.load_pipeline_from_config.
      by rewrite load_steps_run, load_phases_run, Hjobs.
Qed.

(** X14: the pipeline a load returns holds the resolved template path,
    the label and the phases of the configuration, in their order, and
    under every phase the jobs the configuration binds to it, in the
    order of the configuration, each with the template, variable key
    and selectors given there. *)
Theorem load_result `{!FileSystem} (pipeline_config : PipelineConfig.t) (pipeline : Pipeline.t) :
  Loader.load_pipeline_from_config pipeline_config = Returned pipeline →
  let jobs := map Loader.job_of_config (PipelineConfig.jobs pipeline_config) in
  built jobs pipeline ∧
  Pipeline.template pipeline =
    os_path_realpath (PipelineConfig.template pipeline_config) ∧
  Pipeline.host_order_label pipeline =
    Some (PipelineConfig.host_order_label pipeline_config) ∧
  Pipeline.get_phases pipeline =
    (Returned (PipelineConfig.phases pipeline_config), pipeline) ∧
  ∀ phase_name,
    (Pipeline.get_jobs_by_phase phase_name pipeline).1 =
      Returned (jobs_in_phase phase_name jobs).
Proof.
  intros Hload jobs.
  apply load_returned in Hload as (_ & _ & _ & _ & Hbuilt & Hp & Ht & Hh).
  split; [done|]. split; [done|]. split; [done|].
  split; [by rewrite get_phases_run, Hp|].
  intros ph. rewrite get_jobs_by_phase_run. simpl. f_equal.
  apply (stored_ok _ _ (reachable_consistent _ _ (built_reachable _ _ Hbuilt))).
Qed.

Lemma load_result_witness :
  built (map Loader.job_of_config (PipelineConfig.jobs LoaderExample.config))
        LoaderExample.pipeline ∧
  Pipeline.template LoaderExample.pipeline = "/srv/deploy/templates/pipeline.yml" ∧
  Pipeline.host_order_label LoaderExample.pipeline = Some "wave" ∧
  Pipeline.get_phases LoaderExample.pipeline =
    (Returned ["partition"; "changebroker"], LoaderExample.pipeline) ∧
  ∀ phase_name,
    (Pipeline.get_jobs_by_phase phase_name LoaderExample.pipeline).1 =
      Returned (jobs_in_phase phase_name
                  (map Loader.job_of_config (PipelineConfig.jobs LoaderExample.config))).
Proof.
  apply (@load_result LoaderExample.fs LoaderExample.config LoaderExample.pipeline).
  reflexivity.
Defined.

(** X15: when the template exists and a phase is listed twice, the load
    stops in [add_phase], which raises [NameError] there; the jobs are
    not looked at. *)
Theorem load_duplicate_phase `{!FileSystem} (pipeline_config : PipelineConfig.t) :
  os_path_exists (PipelineConfig.template pipeline_config) = true →
  ¬ NoDup (PipelineConfig.phases pipeline_config) →
  Loader.load_pipeline_from_config pipeline_config =
    Raised (NameError "name 'phase' is not defined").
Proof.
  intros Hexists Hdup. unfold Loader.load_pipeline_from_config.
  rewrite load_steps_run by done.
  destruct (add_phases_duplicate (PipelineConfig.phases pipeline_config)
              (load_start pipeline_config)) as (s & Hs);
    [apply NoDup_nil_2 | done |].
  by rewrite Hs.
Qed.

Lemma load_duplicate_phase_witness :
  @Loader.load_pipeline_from_config LoaderExample.fs
      LoaderExample.config_duplicate_phase =
    Raised (NameError "name 'phase' is not defined").
Proof.
  apply (@load_duplicate_phase LoaderExample.fs LoaderExample.config_duplicate_phase).
  - reflexivity.
  - compute_done.
Defined.

(** X16: with an existing template and distinct phases, the first item
    of ["jobs"] that is not acceptable decides the exception: the empty
    name, then a name already met, then an undeclared phase. *)
Theorem load_first_bad_job `{!FileSystem} (pipeline_config : PipelineConfig.t)
    (before after : dict JobConfig.t) (job_name : string) (job_v : JobConfig.t) :
  os_path_exists (PipelineConfig.template pipeline_config) = true →
  NoDup (PipelineConfig.phases pipeline_config) →
  PipelineConfig.jobs pipeline_config = before ++ (job_name, job_v) :: after →
  NoDup (dict_keys before) →
  Forall (good_item (PipelineConfig.phases pipeline_config)) before →
  (job_name = "" →
     Loader.load_pipeline_from_config pipeline_config =
       Raised (JobException "Job Name is Required")) ∧
  (job_name ≠ "" → job_name ∈ dict_keys before →
     Loader.load_pipeline_from_config pipeline_config =
       Raised (JobException ("Duplicate Job Name: " +:+ job_name))) ∧
  (job_name ≠ "" → job_name ∉ dict_keys before →
   JobConfig.phase job_v ∉ PipelineConfig.phases pipeline_config →
     Loader.load_pipeline_from_config pipeline_config =
       Raised (InvalidPhaseException ("Invalid Phase Name: " +:+ JobConfig.phase job_v))).
Proof.
  intros Hexists Hnd Hjobs Hkeys Hgood.
  destruct (load_jobs_run before []
              (Pipeline.set_phases (PipelineConfig.phases pipeline_config)
                 (load_start pipeline_config)))
    as (s & Hbefore); [by apply load_phases_built | done | done |].
  pose proof (load_jobs_returned _ [] _ _ (load_phases_built _ Hnd) Hbefore)
    as (_ & _ & Hbuilt & Hp & _).
  pose proof (reachable_consistent _ _ (built_reachable _ _ Hbuilt)) as Hcons.
  assert (∀ n, n ∈ Pipeline._job_name_cache s ↔ n ∈ dict_keys before) as Hcache.
  { intros n. rewrite (cache_ok _ _ Hcons). simpl. by rewrite job_of_config_names. }
  assert (Loader.load_pipeline_from_config pipeline_config =
          match Loader.load_job (job_name, job_v) s with
          | (Returned _, s') =>
              match Loader.for_each after Loader.load_job s' with
              | (Returned _, p) => Returned p
              | (Raised e, _) => Raised e
              end
          | (Raised e, _) => Raised e
          end) as ->.
  { unfold Loader.load_pipeline_from_config.
    rewrite load_steps_run, load_phases_run, Hjobs, for_each_app, Hbefore by done.
    rewrite for_each_cons. by destruct (Loader.load_job _ s) as [[[]|e] s']. }
  rewrite load_job_run, add_job_run. simpl in *.
  destruct (decide (job_name = "")) as [Hempty|Hname]; [done|].
  split; [done|].
  destruct (decide (job_name ∈ Pipeline._job_name_cache s)) as [Hdup|Hfresh].
  - split; [done|]. intros _ Hout. destruct Hout. by apply Hcache.
  - split; [intros _ Hin; destruct Hfresh; by apply Hcache|].
    intros _ _ Hphase. rewrite Hp. simpl.
    by destruct (decide (JobConfig.phase job_v ∈ _)).
Qed.

Lemma load_first_bad_job_witness :
  @Loader.load_pipeline_from_config LoaderExample.fs
      LoaderExample.config_undeclared_phase =
    Raised (InvalidPhaseException "Invalid Phase Name: rollback").
Proof.
  destruct (@load_first_bad_job LoaderExample.fs LoaderExample.config_undeclared_phase
              (PipelineConfig.jobs LoaderExample.config) [] "c" LoaderExample.job_c)
    as (_ & _ & Hphase).
  - reflexivity.
  - compute_done.
  - reflexivity.
  - compute_done.
  - repeat constructor; compute_done.
  - apply Hphase; compute_done.
Defined.

(** X17: the exceptions a load can raise.  The job names being the keys
    of a dictionary, hence distinct, the duplicate-name [JobException]
    is not among them. *)
Theorem load_errors `{!FileSystem} (pipeline_config : PipelineConfig.t) (e : exn) :
  NoDup (dict_keys (PipelineConfig.jobs pipeline_config)) →
  Loader.load_pipeline_from_config pipeline_config = Raised e →
  (e = InvalidJobTemplateException
         ("Invalid Path: " +:+ PipelineConfig.template pipeline_config) ∨
   e = NameError "name 'phase' is not defined" ∨
   e = JobException "Job Name is Required" ∨
   ∃ ph, e = InvalidPhaseException ("Invalid Phase Name: " +:+ ph)) ∧
  ∀ n, e ≠ JobException ("Duplicate Job Name: " +:+ n).
Proof.
  intros Hkeys Hload.
  assert (e = InvalidJobTemplateException
                ("Invalid Path: " +:+ PipelineConfig.template pipeline_config) ∨
          e = NameError "name 'phase' is not defined" ∨
          e = JobException "Job Name is Required" ∨
          ∃ ph, e = InvalidPhaseException ("Invalid Phase Name: " +:+ ph)) as Hcases.
  { destruct (os_path_exists (PipelineConfig.template pipeline_config)) eqn:Hexists.
    - unfold Loader.load_pipeline_from_config in Hload.
      rewrite load_steps_run in Hload by done.
      destruct (decide (NoDup (PipelineConfig.phases pipeline_config))) as [Hnd|Hdup].
      + rewrite load_phases_run in Hload by done.
        destruct (Loader.for_each (PipelineConfig.jobs pipeline_config) _ _)
          as [[[]|e'] s] eqn:Hjobs; [done|].
        inversion Hload; subst.
        apply (load_jobs_raised _ [] _ _ _ (load_phases_built _ Hnd)) in Hjobs;
          [|done].
        destruct Hjobs as [->|Hphase]; auto.
      + destruct (add_phases_duplicate (PipelineConfig.phases pipeline_config)
                    (load_start pipeline_config)) as (s & Hs);
          [apply NoDup_nil_2 | done |].
        rewrite Hs in Hload. inversion Hload; auto.
    - rewrite load_missing in Hload by done. inversion Hload; auto. }
  split; [exact Hcases|].
  intros n Heq. subst e.
  destruct Hcases as [Hc|[Hc|[Hc|[ph Hc]]]]; inversion Hc.
Qed.

Lemma load_errors_witness :
  (InvalidPhaseException "Invalid Phase Name: rollback" =
     InvalidJobTemplateException "Invalid Path: templates/pipeline.yml" ∨
   InvalidPhaseException "Invalid Phase Name: rollback" =
     NameError "name 'phase' is not defined" ∨
   InvalidPhaseException "Invalid Phase Name: rollback" =
     JobException "Job Name is Required" ∨
   ∃ ph, InvalidPhaseException "Invalid Phase Name: rollback" =
           InvalidPhaseException ("Invalid Phase Name: " +:+ ph)) ∧
  ∀ n, InvalidPhaseException "Invalid Phase Name: rollback" ≠
         JobException ("Duplicate Job Name: " +:+ n).
Proof.
  apply (@load_errors LoaderExample.fs LoaderExample.config_undeclared_phase
           (InvalidPhaseException "Invalid Phase Name: rollback")).
  - compute_done.
  - reflexivity.
Defined.

(** ** A read that is seen later *)

Lemma dict_alter_app_absent {V : Type} (f : V → V) k (d d' : dict V) :
  dict_get k d = None → dict_alter f k (d ++ d') = d ++ dict_alter f k d'.
Proof.
  induction d as [|[k' v] d IH]; simpl; [done|].
  destruct (decide (k = k')); [done|]. intros Hd. by rewrite IH.
Qed.

Lemma dict_get_app_absent {V : Type} k (d d' : dict V) :
  dict_get k d = None → dict_get k (d ++ d') = dict_get k d'.
Proof.
  induction d as [|[k' v] d IH]; simpl; [done|].
  by destruct (decide (k = k')).
Qed.

(** Appending under a key the dictionary does not hold. *)
Lemma append_absent_key {A : Type} k (x : A) (d : dict (list A)) :
  dict_get k d = None →
  dict_alter (λ l, l ++ [x]) k (defaultdict_getitem [] k d).2 = d ++ [(k, [x])].
Proof.
  intros Hd. unfold defaultdict_getitem. rewrite Hd. simpl.
  rewrite dict_alter_app_absent by done. simpl.
  by destruct (decide (k = k)).
Qed.

(** Appending under a key the dictionary holds. *)
Lemma append_present_key {A : Type} k (x : A) l (d d' : dict (list A)) :
  dict_get k d = None →
  dict_alter (λ l, l ++ [x]) k (defaultdict_getitem [] k (d ++ (k, l) :: d')).2 =
    d ++ (k, l ++ [x]) :: d'.
Proof.
  intros Hd. unfold defaultdict_getitem.
  rewrite dict_get_app_absent by done. simpl.
  destruct (decide (k = k)); [|done]. simpl.
  rewrite dict_alter_app_absent by done. simpl.
  by destruct (decide (k = k)).
Qed.

(** X18: [get_jobs_by_phase] is seen by a later [get_jobs].  Take two
    acceptable jobs of two declared phases under which [_job_phase]
    holds nothing yet.  Added in that order, [get_jobs] yields them in
    that order after the jobs there were; when the phase of the second
    one is read before, [get_jobs] yields the second one first. *)
Theorem read_moves_phase_forward (self : Pipeline.t) (job1 job2 : Job.t) :
  Job.name job1 ∉ Pipeline._job_name_cache self →
  Job.name job2 ∉ Pipeline._job_name_cache self →
  Job.name job1 ≠ Job.name job2 →
  Job.phase job1 ∈ Pipeline._phases self →
  Job.phase job2 ∈ Pipeline._phases self →
  Job.phase job1 ∉ dict_keys (Pipeline._job_phase self) →
  Job.phase job2 ∉ dict_keys (Pipeline._job_phase self) →
  Job.phase job1 ≠ Job.phase job2 →
  ∃ before,
    (Pipeline.get_jobs self).1 = Returned before ∧
    ((Pipeline.add_job job1;; Pipeline.add_job job2;; Pipeline.get_jobs) self).1 =
      Returned (before ++ [job1; job2]) ∧
    ((Pipeline.get_jobs_by_phase (Job.phase job2);;
      Pipeline.add_job job1;; Pipeline.add_job job2;; Pipeline.get_jobs) self).1 =
      Returned (before ++ [job2; job1]).
Proof.
  intros Hn1 Hn2 Hne Hp1 Hp2 Hk1 Hk2 Hph.
  apply dict_get_None in Hk1, Hk2.
  exists (flat_map (λ item, item.2) (Pipeline._job_phase self)).
  split; [done|].
  assert (∀ s, Pipeline._job_name_cache s = Pipeline._job_name_cache self →
               Pipeline._phases s = Pipeline._phases self →
               Pipeline.add_job job1 s = (Returned tt, add_job_state job1 s)) as Hadd1.
  { intros s Hc Hp. rewrite add_job_run, Hc, Hp.
    destruct (decide (Job.name job1 ∈ _)); [done|].
    by destruct (decide (Job.phase job1 ∈ _)). }
  assert (∀ s, Pipeline._job_name_cache s = Pipeline._job_name_cache self →
               Pipeline._phases s = Pipeline._phases self →
               Pipeline.add_job job2 (add_job_state job1 s) =
                 (Returned tt, add_job_state job2 (add_job_state job1 s))) as Hadd2.
  { intros s Hc Hp. rewrite add_job_run. simpl. rewrite Hc, Hp.
    destruct (decide (Job.name job2 ∈ _)) as [Hin|_]; [|].
    - apply elem_of_union in Hin as [Hin|Hin]; [|done].
      apply elem_of_singleton in Hin. congruence.
    - by destruct (decide (Job.phase job2 ∈ _)). }
  split.
  - unfold mbind, Pipeline.M_bind.
    rewrite (Hadd1 self), (Hadd2 self), get_jobs_run by done. simpl. f_equal.
    rewrite (append_absent_key (Job.phase job1) job1 (Pipeline._job_phase self)) by done.
    rewrite append_absent_key.
    + rewrite !flat_map_app. simpl. by rewrite <- app_assoc.
    + rewrite dict_get_snoc, Hk2. by destruct (decide (Job.phase job2 = Job.phase job1)).
  - unfold mbind, Pipeline.M_bind. rewrite get_jobs_by_phase_run.
    rewrite (Hadd1 (get_jobs_by_phase_state _ self)),
      (Hadd2 (get_jobs_by_phase_state _ self)), get_jobs_run by done.
    simpl. f_equal. unfold defaultdict_getitem at 3. rewrite Hk2. simpl.
    rewrite (append_absent_key (Job.phase job1) job1
               (Pipeline._job_phase self ++ [(Job.phase job2, [])])).
    + rewrite <- app_assoc. simpl.
      rewrite (append_present_key _ _ []) by done.
      rewrite !flat_map_app. done.
    + rewrite dict_get_snoc, Hk1. by destruct (decide (Job.phase job1 = Job.phase job2)).
Qed.

Lemma read_moves_phase_forward_witness :
  ((Pipeline.add_job Example.job_a;; Pipeline.add_job Example.job_b;;
    Pipeline.get_jobs) Example.two_phases).1 =
    Returned [Example.job_a; Example.job_b] ∧
  ((Pipeline.get_jobs_by_phase "changebroker";;
    Pipeline.add_job Example.job_a;; Pipeline.add_job Example.job_b;;
    Pipeline.get_jobs) Example.two_phases).1 =
    Returned [Example.job_b; Example.job_a].
Proof.
  destruct (read_moves_phase_forward Example.two_phases Example.job_a Example.job_b)
    as (before & Hbefore & Hplain & Hread); try compute_done.
  injection Hbefore as <-. split; [exact Hplain | exact Hread].
Defined.
